(** * The channel link of the HTLC switch (htlcswitch/link.go)

    A shallow embedding of the per-channel link: the forwarding policy and
    its fee arithmetic, the serial event loop [htlcManager], the handlers
    for downstream packets and upstream wire messages, the processing of
    locked-in HTLCs, and the resynchronisation done on reconnection.

    Go's fixed-width integers are integers of [Z] with the wrap-around
    written out at every operation that can leave the range: [uint32] and
    [uint64] wrap modulo a power of two, [int64] wraps in two's complement.
    The collaborators of the link (the channel state machine, the invoice
    registry, the decoders, the peer) live outside of this file of the
    repository; they are interfaces here, and every statement holds for all
    their implementations.  What the link does to them is recorded in a
    trace of events, in program order. *)

From Stdlib Require Import ZArith Lia String List Bool.
From stdpp Require Import base gmap list.
Import ListNotations.

Local Open Scope Z_scope.

(** ** Machine integers *)

Definition wrap32 (z : Z) : Z := z mod 2 ^ 32.
Definition wrap64 (z : Z) : Z := z mod 2 ^ 64.

(** [btcutil.Amount] is an [int64]. *)
Definition wrapInt64 (z : Z) : Z := (z + 2 ^ 63) mod 2 ^ 64 - 2 ^ 63.

Definition isUint64 (z : Z) : Prop := 0 <= z < 2 ^ 64.
Definition maxInt64 : Z := 2 ^ 63 - 1.

(** ** The forwarding policy *)

(** [expiryGraceDelta]: grace period, in blocks, that the timeout of an
    HTLC paying to this node must uphold. *)
Definition expiryGraceDelta : Z := 2.

(** [lnwire.MilliSatoshi] is a [uint64]; [TimeLockDelta] is a [uint32]. *)
Record ForwardingPolicy := {
  MinHTLC : Z;
  BaseFee : Z;
  FeeRate : Z;
  TimeLockDelta : Z
}.

(** [f.BaseFee + (htlcAmt*f.FeeRate)/1000000] on [uint64]. *)
Definition ExpectedFee (f : ForwardingPolicy) (htlcAmt : Z) : Z :=
  wrap64 (BaseFee f + wrap64 (htlcAmt * FeeRate f) / 1000000).

(** The [switch] of [shouldAdjustCommitFee] on [int64]; the division of Go
    truncates toward zero ([Z.quot]). *)
Definition shouldAdjustCommitFee (netFee chanFee : Z) : bool :=
  if (netFee >? chanFee) &&
     (netFee >=? wrapInt64 (chanFee + Z.quot (wrapInt64 (chanFee * 10)) 100))
  then true
  else if (netFee <? chanFee) &&
          (netFee <=? wrapInt64 (chanFee - Z.quot (wrapInt64 (chanFee * 10)) 100))
  then true
  else false.

(** ** Wire messages and packets *)

(** Payment hashes, preimages and SHA-256 digests are 32-byte values. *)
Definition Hash32 := Z.
Definition OpaqueReason := list Byte.byte.
Definition OnionBlob := list Byte.byte.
Definition Sig := list Byte.byte.
Definition ChannelID := Z.
Definition ShortChannelID := Z.
Definition ChannelUpdate := list Byte.byte.

(** Go's [error] values the link tells apart: two sentinels compared by
    identity, one type tested by a type assertion, and all the others. *)
Inductive error :=
| ErrMaxHTLCNumber
| ErrNoWindow
| InvalidCommitSigError
| ErrOther (msg : string).

Inductive result (A : Type) :=
| Ok (a : A)
| Err (e : error).
Arguments Ok {A} a.
Arguments Err {A} e.

Inductive FailCode :=
| CodeNone
| CodeInvalidOnionVersion
| CodeInvalidOnionHmac
| CodeInvalidOnionKey
| CodeOther (c : Z).

Definition isCodeNone (c : FailCode) : bool :=
  match c with CodeNone => true | _ => false end.

(** [lnwire.FailureMessage]: the failures this file builds.
    [FailFinalIncorrectCltvExpiry{}] is [FailFinalIncorrectCltvExpiry 0]. *)
Inductive FailureMessage :=
| FailTemporaryChannelFailure (update : option ChannelUpdate)
| FailFinalIncorrectCltvExpiry (cltvExpiry : Z)
| FailUnknownPaymentHash
| FailIncorrectPaymentAmount
| FailExpiryTooSoon (update : ChannelUpdate)
| FailAmountBelowMinimum (htlcMsat : Z) (update : ChannelUpdate)
| FailFeeInsufficient (htlcMsat : Z) (update : ChannelUpdate)
| FailIncorrectCltvExpiry (cltvExpiry : Z) (update : ChannelUpdate)
| FailInvalidOnionVersion (onionSHA256 : Hash32)
| FailInvalidOnionHmac (onionSHA256 : Hash32)
| FailInvalidOnionKey (onionSHA256 : Hash32).

Record UpdateAddHTLC := {
  addChanID : ChannelID;
  addID : Z;
  addAmount : Z;
  addPaymentHash : Hash32;
  addExpiry : Z;
  addOnionBlob : OnionBlob
}.

Record UpdateFufillHTLC := {
  fufillChanID : ChannelID;
  fufillID : Z;
  fufillPaymentPreimage : Hash32
}.

Record UpdateFailHTLC := {
  failChanID : ChannelID;
  failID : Z;
  failReason : OpaqueReason
}.

Record UpdateFailMalformedHTLC := {
  malformedChanID : ChannelID;
  malformedID : Z;
  malformedShaOnionBlob : Hash32;
  malformedFailureCode : FailCode
}.

Record CommitSig := {
  commitChanID : ChannelID;
  commitCommitSig : Sig;
  commitHtlcSigs : list Sig
}.

Record RevokeAndAck := {
  revokeChanID : ChannelID;
  revokeRevocation : Hash32;
  revokeNextRevocationKey : Hash32
}.

Record UpdateFee := {
  feeChanID : ChannelID;
  feeFeePerKw : Z
}.

Record ChannelReestablish := {
  reestChanID : ChannelID;
  NextLocalCommitHeight : Z;
  RemoteCommitTailHeight : Z;
  LastRemoteCommitSecret : Hash32
}.

Record FundingLocked := {
  lockedChanID : ChannelID;
  lockedNextPerCommitmentPoint : Hash32
}.

Record WireError := {
  errorChanID : ChannelID;
  errorData : string
}.

(** [lnwire.Message], an interface in Go, as a closed sum. *)
Inductive Message :=
| MsgUpdateAddHTLC (m : UpdateAddHTLC)
| MsgUpdateFufillHTLC (m : UpdateFufillHTLC)
| MsgUpdateFailHTLC (m : UpdateFailHTLC)
| MsgUpdateFailMalformedHTLC (m : UpdateFailMalformedHTLC)
| MsgCommitSig (m : CommitSig)
| MsgRevokeAndAck (m : RevokeAndAck)
| MsgUpdateFee (m : UpdateFee)
| MsgChannelReestablish (m : ChannelReestablish)
| MsgFundingLocked (m : FundingLocked)
| MsgError (m : WireError).

(** The [ErrorEncrypter] and [HopIterator] interfaces, as records of their
    methods. *)
Record ErrorEncrypter := {
  EncryptFirstHop : FailureMessage -> result OpaqueReason
}.

Record ForwardingInfo := {
  NextHop : ShortChannelID;
  AmountToForward : Z;
  OutgoingCTLV : Z
}.

(** [EncodeNextHop(w io.Writer) error]: the error, or the chunks of bytes
    the method writes to [w], one per call of [Write], in order. *)
Record HopIterator := {
  ForwardingInstructions : ForwardingInfo;
  EncodeNextHop : result (list (list Byte.byte))
}.

(** [exitHop] is the zero value of [lnwire.ShortChannelID]. *)
Definition exitHop : ShortChannelID := 0.

Record htlcPacket := {
  incomingChanID : ShortChannelID;
  incomingHTLCID : Z;
  outgoingChanID : ShortChannelID;
  outgoingHTLCID : Z;
  amount : Z;
  htlc : Message;
  obfuscator : option ErrorEncrypter;
  isRouted : bool;
  localFailure : bool
}.

Record PaymentCircuit := {
  PaymentHash : Hash32;
  IncomingChanID : ShortChannelID;
  IncomingHTLCID : Z;
  OutgoingChanID : ShortChannelID;
  OutgoingHTLCID : Z;
  ErrorEncrypterOf : option ErrorEncrypter
}.

(** Modelled from the spec: the entry types of [lnwallet.PaymentDescriptor]
    (the declaration is in lnwallet); the spec names the variants Settle,
    Fail and Add. *)
Inductive updateType := Add | Fail | Settle.

Record PaymentDescriptor := {
  EntryType : updateType;
  ParentIndex : Z;
  pdAmount : Z;
  RPreimage : Hash32;
  pdRHash : Hash32;
  FailReason : OpaqueReason;
  pdOnionBlob : OnionBlob;
  pdHtlcIndex : Z;
  Timeout : Z
}.

(** [channeldb.HTLC] and [channeldb.Invoice], the fields the link reads. *)
Record HTLC := {
  Incoming : bool;
  HtlcIndex : Z;
  RHash : Hash32;
  Amt : Z
}.

Record Invoice := {
  Value : Z;
  Settled : bool;
  PaymentPreimage : Hash32
}.

(** ** The collaborators *)

(** [lnwallet.LightningChannel], the channel state machine.  A method that
    can change the machine returns the machine it leaves behind, also when
    it returns an error. *)
Class LightningChannel (Chan : Type) := {
  AddHTLC : UpdateAddHTLC -> Chan -> result Z * Chan;
  SettleHTLC : Hash32 -> Z -> Chan -> option error * Chan;
  FailHTLC : Z -> OpaqueReason -> Chan -> option error * Chan;
  MalformedFailHTLC : Z -> FailCode -> Hash32 -> Chan -> option error * Chan;
  ReceiveHTLC : UpdateAddHTLC -> Chan -> result Z * Chan;
  ReceiveHTLCSettle : Hash32 -> Z -> Chan -> option error * Chan;
  ReceiveFailHTLC : Z -> OpaqueReason -> Chan -> option error * Chan;
  ReceiveNewCommitment : Sig -> list Sig -> Chan -> option error * Chan;
  RevokeCurrentCommitment : Chan -> result (RevokeAndAck * list HTLC) * Chan;
  SignNextCommitment : Chan -> result (Sig * list Sig) * Chan;
  ReceiveRevocation :
    RevokeAndAck -> Chan -> result (list PaymentDescriptor) * Chan;
  ReceiveUpdateFee : Z -> Chan -> option error * Chan;
  channel_UpdateFee : Z -> Chan -> option error * Chan;
  ProcessChanSyncMsg :
    ChannelReestablish -> Chan -> result (list Message) * Chan;
  ChanSyncMsg : Chan -> result ChannelReestablish;
  NextRevocationKey : Chan -> result Hash32;
  FullySynced : Chan -> bool;
  IsPending : Chan -> bool;
  IsInitiator : Chan -> bool;
  RemoteNextRevocation : Chan -> option Hash32;
  CommitFeeRate : Chan -> Z;
  AvailableBalance : Chan -> Z;
  ActiveHtlcs : Chan -> list HTLC;
  channel_ShortChanID : Chan -> ShortChannelID;
  channel_ChanID : Chan -> ChannelID
}.

(** [InvoiceDatabase], the invoice registry. *)
Class InvoiceDatabase (Reg : Type) := {
  LookupInvoice : Hash32 -> Reg -> result Invoice;
  SettleInvoice : Hash32 -> Reg -> option error * Reg
}.

(** The closures and read-only services of [ChannelLinkConfig], and the
    library functions and constants of lnwire the link calls. *)
Class LinkServices := {
  DecodeOnionObfuscator : OnionBlob -> ErrorEncrypter * FailCode;
  DecodeHopIterator : OnionBlob -> Hash32 -> HopIterator * FailCode;
  GetLastChannelUpdate : result ChannelUpdate;
  LookupPreimage : Hash32 -> option Hash32;
  EstimateFeePerWeight : Z -> result Z;
  PeerSendMessage : Message -> option error;
  EncodeFailure : FailureMessage -> result OpaqueReason;
  Sum256 : list Byte.byte -> Hash32;
  OnionPacketSize : nat
}.

(** ** Events

    What the link does to the outside, in program order.  A call that
    changes the channel machine or the registry is recorded when it is
    made, whatever it returns; [EvSendMessage] is the call of
    [Peer.SendMessage].  A [go] statement is recorded where it is spawned.
    Of the log, only the records of level Error are kept ([EvLogError]
    with the format string). *)
Inductive Event :=
| EvSendMessage (m : Message)
| EvDisconnect (reason : string)
| EvWipeChannel
| EvLogError (format : string)
| EvAddHTLC (m : UpdateAddHTLC)
| EvSettleHTLC (preimage : Hash32) (index : Z)
| EvFailHTLC (index : Z) (reason : OpaqueReason)
| EvMalformedFailHTLC (index : Z) (code : FailCode) (sha : Hash32)
| EvReceiveHTLC (m : UpdateAddHTLC)
| EvReceiveHTLCSettle (preimage : Hash32) (index : Z)
| EvReceiveFailHTLC (index : Z) (reason : OpaqueReason)
| EvReceiveNewCommitment (sig : Sig) (htlcSigs : list Sig)
| EvRevokeCurrentCommitment
| EvSignNextCommitment
| EvReceiveRevocation (m : RevokeAndAck)
| EvReceiveUpdateFee (fee : Z)
| EvUpdateFee (fee : Z)
| EvProcessChanSyncMsg (m : ChannelReestablish)
| EvSettleInvoice (hash : Hash32)
| EvAddPreimage (preimage : Hash32)
| EvEncryptFirstHop (failure : FailureMessage)
| EvSwitchForward (packets : list htlcPacket)
| EvSwitchAddCircuit (c : PaymentCircuit)
| EvSignalFreeSlot
| EvHtlcUpdates (htlcs : list HTLC)
| EvStopLogCommitTimer
| EvResetLogCommitTimer
| EvCloseDone
| EvCancelBlockEpochs.

(** ** The link *)

Record ChannelLinkConfig := {
  FwrdingPolicy : ForwardingPolicy;
  DebugHTLC : bool;
  HodlHTLC : bool;
  SyncStates : bool
}.

(** [channelLink]: the fields the event loop reads and writes.  The
    registry of [cfg.Registry] is kept next to the channel; the overflow
    queue is the list of its packets, head first; [logCommitTick] tells
    whether the tick channel is set (not nil). *)
Record channelLink (Chan Reg : Type) := {
  batchCounter : Z;
  bestHeight : Z;
  channel : Chan;
  cfg : ChannelLinkConfig;
  registry : Reg;
  overflowQueue : list htlcPacket;
  logCommitTick : bool
}.
Arguments batchCounter {Chan Reg} _.
Arguments bestHeight {Chan Reg} _.
Arguments channel {Chan Reg} _.
Arguments cfg {Chan Reg} _.
Arguments registry {Chan Reg} _.
Arguments overflowQueue {Chan Reg} _.
Arguments logCommitTick {Chan Reg} _.

(** Modelled from the spec: the overflow queue ([packetQueue], queue.go) is
    a FIFO of downstream Add packets, here the list of its packets, head
    first; [AddPkt] appends a packet. *)
Definition queueAddPkt (pkt : htlcPacket) (q : list htlcPacket) :
  list htlcPacket := q ++ [pkt].

(** Modelled from the spec: [Length] of the overflow queue, the number of
    packets it holds. *)
Definition queueLength (q : list htlcPacket) : Z := Z.of_nat (length q).

(** Modelled from the spec: [TotalHtlcAmount] of the overflow queue, the
    total amount of the queued packets, a [lnwire.MilliSatoshi]. *)
Definition TotalHtlcAmount (q : list htlcPacket) : Z :=
  fold_left (fun acc pkt => wrap64 (acc + amount pkt)) q 0.

Definition setPolicyBaseFee (v : Z) (c : ChannelLinkConfig) :=
  {| FwrdingPolicy :=
       {| MinHTLC := MinHTLC (FwrdingPolicy c); BaseFee := v;
          FeeRate := FeeRate (FwrdingPolicy c);
          TimeLockDelta := TimeLockDelta (FwrdingPolicy c) |};
     DebugHTLC := DebugHTLC c; HodlHTLC := HodlHTLC c;
     SyncStates := SyncStates c |}.

Definition setPolicyFeeRate (v : Z) (c : ChannelLinkConfig) :=
  {| FwrdingPolicy :=
       {| MinHTLC := MinHTLC (FwrdingPolicy c);
          BaseFee := BaseFee (FwrdingPolicy c); FeeRate := v;
          TimeLockDelta := TimeLockDelta (FwrdingPolicy c) |};
     DebugHTLC := DebugHTLC c; HodlHTLC := HodlHTLC c;
     SyncStates := SyncStates c |}.

Definition setPolicyTimeLockDelta (v : Z) (c : ChannelLinkConfig) :=
  {| FwrdingPolicy :=
       {| MinHTLC := MinHTLC (FwrdingPolicy c);
          BaseFee := BaseFee (FwrdingPolicy c);
          FeeRate := FeeRate (FwrdingPolicy c); TimeLockDelta := v |};
     DebugHTLC := DebugHTLC c; HodlHTLC := HodlHTLC c;
     SyncStates := SyncStates c |}.

(** Control requests of [linkControl] and the events of the [select] of
    the event loop. *)
Record policyUpdate := {
  policy : ForwardingPolicy;
  done : bool
}.

Inductive controlCmd :=
| CmdPolicyUpdate (req : policyUpdate)
| CmdGetBandwidth.

Inductive loopEvent :=
| BlockEpoch (ok : bool) (height : Z)
| UnilateralClosure
| LogCommitTick
| BatchTick
| OverflowOutgoing
| Downstream (pkt : htlcPacket)
| Upstream (msg : Message) (quit : bool)
| LinkControl (cmd : controlCmd)
| Quit.

(** How an iteration of the loop ends: [continue] (or the end of the
    [select]), [break out], or a run-time panic. *)
Inductive loopCtl := Continue | BreakOut | Panic.

(** What the [select] of [syncChanStates] receives. *)
Inductive syncInput :=
| SyncUpstream (msg : Message)
| SyncQuit
| SyncDeadline.

(** The text of an error, for [err.Error()]. *)
Definition errorText (e : error) : string :=
  match e with
  | ErrMaxHTLCNumber => "commitment transaction exceed max htlc number"
  | ErrNoWindow => "unable to sign new commitment, the current revocation window is exhausted"
  | InvalidCommitSigError => "invalid commit sig"
  | ErrOther msg => msg
  end.

(** ** The monad of the link: a state and the trace of events *)

Definition M (S A : Type) : Type := S -> A * S * list Event.

Definition ret {S A} (a : A) : M S A := fun l => (a, l, []).

Definition bind {S A B} (c : M S A) (k : A -> M S B) : M S B :=
  fun l =>
    let '(a, l1, e1) := c l in
    let '(b, l2, e2) := k a l1 in
    (b, l2, e1 ++ e2).

Definition gets {S A} (f : S -> A) : M S A := fun l => (f l, l, []).
Definition emit {S} (e : Event) : M S unit := fun l => (tt, l, [e]).

Notation "'let*' x ':=' c 'in' k" := (bind c (fun x => k))
  (at level 10, x pattern, c at level 100, k at level 200).

Section Link.

Context {Chan Reg : Type}.
Context `{LC : LightningChannel Chan} `{ID : InvoiceDatabase Reg}.
Context `{LS : LinkServices}.

Abbreviation link := (channelLink Chan Reg).

Definition setBatchCounter (v : Z) : M link unit := fun l =>
  (tt, {| batchCounter := v; bestHeight := bestHeight l;
          channel := channel l; cfg := cfg l; registry := registry l;
          overflowQueue := overflowQueue l;
          logCommitTick := logCommitTick l |}, []).

Definition setBestHeight (v : Z) : M link unit := fun l =>
  (tt, {| batchCounter := batchCounter l; bestHeight := v;
          channel := channel l; cfg := cfg l; registry := registry l;
          overflowQueue := overflowQueue l;
          logCommitTick := logCommitTick l |}, []).

Definition setChannel (v : Chan) : M link unit := fun l =>
  (tt, {| batchCounter := batchCounter l; bestHeight := bestHeight l;
          channel := v; cfg := cfg l; registry := registry l;
          overflowQueue := overflowQueue l;
          logCommitTick := logCommitTick l |}, []).

Definition setCfg (v : ChannelLinkConfig) : M link unit := fun l =>
  (tt, {| batchCounter := batchCounter l; bestHeight := bestHeight l;
          channel := channel l; cfg := v; registry := registry l;
          overflowQueue := overflowQueue l;
          logCommitTick := logCommitTick l |}, []).

Definition setRegistry (v : Reg) : M link unit := fun l =>
  (tt, {| batchCounter := batchCounter l; bestHeight := bestHeight l;
          channel := channel l; cfg := cfg l; registry := v;
          overflowQueue := overflowQueue l;
          logCommitTick := logCommitTick l |}, []).

Definition setOverflowQueue (v : list htlcPacket) : M link unit := fun l =>
  (tt, {| batchCounter := batchCounter l; bestHeight := bestHeight l;
          channel := channel l; cfg := cfg l; registry := registry l;
          overflowQueue := v;
          logCommitTick := logCommitTick l |}, []).

Definition setLogCommitTick (v : bool) : M link unit := fun l =>
  (tt, {| batchCounter := batchCounter l; bestHeight := bestHeight l;
          channel := channel l; cfg := cfg l; registry := registry l;
          overflowQueue := overflowQueue l;
          logCommitTick := v |}, []).

(** A call of a method of the channel machine (of the registry): the
    event, and the method on the current machine. *)
Definition callChannel {A} (e : Event) (f : Chan -> A * Chan) : M link A :=
  fun l =>
    let '(a, c) := f (channel l) in
    let '(_, l1, _) := setChannel c l in
    (a, l1, [e]).

Definition callRegistry {A} (e : Event) (f : Reg -> A * Reg) : M link A :=
  fun l =>
    let '(a, r) := f (registry l) in
    let '(_, l1, _) := setRegistry r l in
    (a, l1, [e]).

Definition SendMessage (m : Message) : M link unit := emit (EvSendMessage m).

Definition ChanID (l : link) : ChannelID := channel_ChanID (channel l).
Definition ShortChanID (l : link) : ShortChannelID :=
  channel_ShortChanID (channel l).

(** [fail]: log the reason, have the peer disconnect. *)
Definition fail (format : string) : M link unit :=
  let* _ := emit (EvLogError format) in
  emit (EvDisconnect format).

Definition EligibleToForward (l : link) : bool :=
  match RemoteNextRevocation (channel l) with
  | Some _ => true
  | None => false
  end.

(** [Bandwidth]: a subtraction of two [lnwire.MilliSatoshi]. *)
Definition Bandwidth (l : link) : Z :=
  let channelBandwidth := AvailableBalance (channel l) in
  let overflowBandwidth := TotalHtlcAmount (overflowQueue l) in
  wrap64 (channelBandwidth - overflowBandwidth).

(** [sampleNetworkFee]: sat/weight for 3 blocks, times 1000, an [int64]. *)
Definition sampleNetworkFee : result Z :=
  match EstimateFeePerWeight 3 with
  | Err e => Err e
  | Ok feePerWeight => Ok (wrapInt64 (feePerWeight * 1000))
  end.

(** [updateCommitTx]; the result is Go's [error], [None] for [nil]. *)
Definition updateCommitTx : M link (option error) :=
  let* r := callChannel EvSignNextCommitment SignNextCommitment in
  match r with
  | Err ErrNoWindow => ret None
  | Err e => ret (Some e)
  | Ok (theirCommitSig, htlcSigs) =>
      let* cid := gets ChanID in
      let* _ := SendMessage (MsgCommitSig
                   {| commitChanID := cid; commitCommitSig := theirCommitSig;
                      commitHtlcSigs := htlcSigs |}) in
      let* _ := emit EvStopLogCommitTimer in
      let* _ := setLogCommitTick false in
      let* _ := setBatchCounter 0 in
      ret None
  end.

Definition updateChannelFee (feePerKw : Z) : M link (option error) :=
  let* eligible := gets EligibleToForward in
  if negb eligible then ret None
  else
    let* err := callChannel (EvUpdateFee feePerKw)
                  (channel_UpdateFee feePerKw) in
    match err with
    | Some e => ret (Some e)
    | None =>
        let* cid := gets ChanID in
        let msg := MsgUpdateFee
          {| feeChanID := cid; feeFeePerKw := wrap32 feePerKw |} in
        let* _ := SendMessage msg in
        match PeerSendMessage msg with
        | Some e => ret (Some e)
        | None => updateCommitTx
        end
    end.

Definition sendHTLCError (htlcIndex : Z) (failure : FailureMessage)
    (e : ErrorEncrypter) : M link unit :=
  let* _ := emit (EvEncryptFirstHop failure) in
  match EncryptFirstHop e failure with
  | Err _ => emit (EvLogError "unable to obfuscate error: %v")
  | Ok reason =>
      let* err := callChannel (EvFailHTLC htlcIndex reason)
                    (FailHTLC htlcIndex reason) in
      match err with
      | Some _ => emit (EvLogError "unable cancel htlc: %v")
      | None =>
          let* cid := gets ChanID in
          SendMessage (MsgUpdateFailHTLC
            {| failChanID := cid; failID := htlcIndex;
               failReason := reason |})
      end
  end.

Definition sendMalformedHTLCError (htlcIndex : Z) (code : FailCode)
    (onionBlob : OnionBlob) : M link unit :=
  let shaOnionBlob := Sum256 onionBlob in
  let* err := callChannel (EvMalformedFailHTLC htlcIndex code shaOnionBlob)
                (MalformedFailHTLC htlcIndex code shaOnionBlob) in
  match err with
  | Some _ => emit (EvLogError "unable cancel htlc: %v")
  | None =>
      let* cid := gets ChanID in
      SendMessage (MsgUpdateFailMalformedHTLC
        {| malformedChanID := cid; malformedID := htlcIndex;
           malformedShaOnionBlob := shaOnionBlob;
           malformedFailureCode := code |})
  end.

(** *** Locked-in HTLCs

    The body of the loop of [processLockedInHtlcs] works on the two local
    variables [needUpdate] and [packetsToForward]; it gives them back
    ([Some]) where the Go code goes on with the next descriptor, and gives
    [None] where the Go code leaves the function with [return nil]. *)

Definition loopVars : Type := bool * list htlcPacket.

(** [sendHTLCError], [needUpdate = true], [continue]. *)
Definition rejectHTLC (pd : PaymentDescriptor) (failure : FailureMessage)
    (obfuscator : ErrorEncrypter) (vars : loopVars) :
    M link (option loopVars) :=
  let* _ := sendHTLCError (pdHtlcIndex pd) failure obfuscator in
  ret (Some (true, snd vars)).

(** [var onionBlob [lnwire.OnionPacketSize]byte; copy(onionBlob[:], ...)] *)
Definition copyOnionBlob (blob : OnionBlob) : OnionBlob :=
  firstn OnionPacketSize (blob ++ repeat Byte.x00 OnionPacketSize).

(** [bytes.NewBuffer(addMsg.OnionBlob[0:0])]: a buffer of length 0 on the
    array of the Add.  A chunk that fits the room left is written into the
    array; at the first chunk that does not fit the buffer moves to a slice
    of its own, and this chunk and all the later ones never reach the
    array. *)
Fixpoint writeOnionBlob (room : nat) (chunks : list (list Byte.byte)) :
    list Byte.byte :=
  match chunks with
  | [] => []
  | chunk :: rest =>
      if (length chunk <=? room)%nat
      then chunk ++ writeOnionBlob (room - length chunk) rest
      else []
  end.

(** [addMsg.OnionBlob] after [EncodeNextHop(buf)]: what was written into
    the array, the rest of the array being zero. *)
Definition encodedOnionBlob (chunks : list (list Byte.byte)) : OnionBlob :=
  let written := writeOnionBlob OnionPacketSize chunks in
  written ++ repeat Byte.x00 (OnionPacketSize - length written).

(** [case exitHop:] this node is the destination of the payment. *)
Definition processExitHop (pd : PaymentDescriptor) (fwdInfo : ForwardingInfo)
    (obfuscator : ErrorEncrypter) (heightNow : Z) (vars : loopVars) :
    M link (option loopVars) :=
  let* c := gets cfg in
  if DebugHTLC c && HodlHTLC c then ret (Some vars)
  else if wrap32 (Timeout pd - expiryGraceDelta) <=? heightNow then
    let* _ := emit (EvLogError "htlc(%x) has an expiry that's too soon") in
    rejectHTLC pd (FailFinalIncorrectCltvExpiry 0) obfuscator vars
  else
    let invoiceHash := pdRHash pd in
    let* reg := gets registry in
    match LookupInvoice invoiceHash reg with
    | Err _ =>
        let* _ := emit (EvLogError "unable to query invoice registry") in
        rejectHTLC pd FailUnknownPaymentHash obfuscator vars
    | Ok invoice =>
        if Settled invoice then
          rejectHTLC pd FailUnknownPaymentHash obfuscator vars
        else if negb (DebugHTLC c) && (Value invoice >? 0) &&
                (pdAmount pd <? Value invoice) then
          let* _ := emit (EvLogError
                        "rejecting htlc due to incorrect amount") in
          rejectHTLC pd FailIncorrectPaymentAmount obfuscator vars
        else if negb (DebugHTLC c) && (Value invoice >? 0) &&
                negb (AmountToForward fwdInfo =? Value invoice) then
          let* _ := emit (EvLogError
                        "Onion payload of incoming htlc has incorrect value") in
          rejectHTLC pd FailIncorrectPaymentAmount obfuscator vars
        else
          let expectedHeight :=
            wrap32 (heightNow + TimeLockDelta (FwrdingPolicy c)) in
          if negb (DebugHTLC c) &&
             (OutgoingCTLV fwdInfo <? expectedHeight) then
            let* _ := emit (EvLogError
                "Onion payload of incoming htlc has incorrect time-lock") in
            rejectHTLC pd
              (FailFinalIncorrectCltvExpiry (OutgoingCTLV fwdInfo))
              obfuscator vars
          else if negb (DebugHTLC c) &&
                  negb (Timeout pd =? OutgoingCTLV fwdInfo) then
            let* _ := emit (EvLogError "HTLC has incorrect time-lock") in
            rejectHTLC pd
              (FailFinalIncorrectCltvExpiry (OutgoingCTLV fwdInfo))
              obfuscator vars
          else
            let preimage := PaymentPreimage invoice in
            let* err := callChannel (EvSettleHTLC preimage (pdHtlcIndex pd))
                          (SettleHTLC preimage (pdHtlcIndex pd)) in
            match err with
            | Some _ =>
                let* _ := fail "unable to settle htlc: %v" in ret None
            | None =>
                let* err := callRegistry (EvSettleInvoice invoiceHash)
                              (SettleInvoice invoiceHash) in
                match err with
                | Some _ =>
                    let* _ := fail "unable to settle invoice: %v" in ret None
                | None =>
                    let* cid := gets ChanID in
                    let* _ := SendMessage (MsgUpdateFufillHTLC
                      {| fufillChanID := cid; fufillID := pdHtlcIndex pd;
                         fufillPaymentPreimage := preimage |}) in
                    ret (Some (true, snd vars))
                end
            end
    end.

(** [default:] there are further hops; the forwarding policy is checked. *)
Definition processForwardHop (pd : PaymentDescriptor)
    (fwdInfo : ForwardingInfo) (chanIterator : HopIterator)
    (obfuscator : ErrorEncrypter) (heightNow : Z) (vars : loopVars) :
    M link (option loopVars) :=
  let* c := gets cfg in
  let timeDelta := TimeLockDelta (FwrdingPolicy c) in
  if wrap32 (Timeout pd - timeDelta) <=? heightNow then
    let* _ := emit (EvLogError "htlc(%x) has an expiry that's too soon") in
    let failure :=
      match GetLastChannelUpdate with
      | Err _ => FailTemporaryChannelFailure None
      | Ok update => FailExpiryTooSoon update
      end in
    rejectHTLC pd failure obfuscator vars
  else if pdAmount pd <? MinHTLC (FwrdingPolicy c) then
    let* _ := emit (EvLogError "Incoming htlc(%x) is too small") in
    let failure :=
      match GetLastChannelUpdate with
      | Err _ => FailTemporaryChannelFailure None
      | Ok update => FailAmountBelowMinimum (pdAmount pd) update
      end in
    rejectHTLC pd failure obfuscator vars
  else
    let expectedFee :=
      ExpectedFee (FwrdingPolicy c) (AmountToForward fwdInfo) in
    if wrap64 (pdAmount pd - expectedFee) <? AmountToForward fwdInfo then
      let* _ := emit (EvLogError "Incoming htlc(%x) has insufficient fee") in
      let failure :=
        match GetLastChannelUpdate with
        | Err _ => FailTemporaryChannelFailure None
        | Ok update => FailFeeInsufficient (pdAmount pd) update
        end in
      rejectHTLC pd failure obfuscator vars
    else if wrap32 (Timeout pd - timeDelta) <? OutgoingCTLV fwdInfo then
      let* _ := emit (EvLogError
                    "Incoming htlc(%x) has incorrect time-lock value") in
      match GetLastChannelUpdate with
      | Err _ =>
          let* _ := fail
            "unable to create channel update while handling the error: %v" in
          ret None
      | Ok update =>
          rejectHTLC pd (FailIncorrectCltvExpiry (Timeout pd) update)
            obfuscator vars
      end
    else
      match EncodeNextHop chanIterator with
      | Err _ =>
          let* _ := emit (EvLogError
                        "unable to encode the remaining route %v") in
          rejectHTLC pd (FailTemporaryChannelFailure None) obfuscator vars
      | Ok chunks =>
          let addMsg :=
            {| addChanID := 0; addID := 0;
               addAmount := AmountToForward fwdInfo;
               addPaymentHash := pdRHash pd;
               addExpiry := OutgoingCTLV fwdInfo;
               addOnionBlob := encodedOnionBlob chunks |} in
          let* scid := gets ShortChanID in
          let updatePacket :=
            {| incomingChanID := scid;
               incomingHTLCID := pdHtlcIndex pd;
               outgoingChanID := NextHop fwdInfo;
               outgoingHTLCID := 0;
               amount := addAmount addMsg;
               htlc := MsgUpdateAddHTLC addMsg;
               obfuscator := Some obfuscator;
               isRouted := false;
               localFailure := false |} in
          ret (Some (fst vars, snd vars ++ [updatePacket]))
      end.

(** [case lnwallet.Add:] *)
Definition processAdd (pd : PaymentDescriptor) (vars : loopVars) :
    M link (option loopVars) :=
  let onionBlob := copyOnionBlob (pdOnionBlob pd) in
  let '(obfuscator, failureCode) := DecodeOnionObfuscator onionBlob in
  if negb (isCodeNone failureCode) then
    let* _ := sendMalformedHTLCError (pdHtlcIndex pd) failureCode onionBlob in
    let* _ := emit (EvLogError "unable to decode onion obfuscator: %v") in
    ret (Some (true, snd vars))
  else
    let '(chanIterator, failureCode) :=
      DecodeHopIterator onionBlob (pdRHash pd) in
    if negb (isCodeNone failureCode) then
      let* _ := sendMalformedHTLCError (pdHtlcIndex pd) failureCode
                  onionBlob in
      let* _ := emit (EvLogError "unable to decode onion hop iterator: %v") in
      ret (Some (true, snd vars))
    else
      let* heightNow := gets bestHeight in
      let fwdInfo := ForwardingInstructions chanIterator in
      if NextHop fwdInfo =? exitHop then
        processExitHop pd fwdInfo obfuscator heightNow vars
      else
        processForwardHop pd fwdInfo chanIterator obfuscator heightNow vars.

(** One turn of [for _, pd := range paymentDescriptors]. *)
Definition processDescriptor (pd : PaymentDescriptor) (vars : loopVars) :
    M link (option loopVars) :=
  match EntryType pd with
  | Settle =>
      let* scid := gets ShortChanID in
      let settlePacket :=
        {| incomingChanID := 0; incomingHTLCID := 0;
           outgoingChanID := scid; outgoingHTLCID := ParentIndex pd;
           amount := pdAmount pd;
           htlc := MsgUpdateFufillHTLC
             {| fufillChanID := 0; fufillID := 0;
                fufillPaymentPreimage := RPreimage pd |};
           obfuscator := None; isRouted := false; localFailure := false |} in
      let* _ := emit EvSignalFreeSlot in
      ret (Some (fst vars, snd vars ++ [settlePacket]))
  | Fail =>
      let* scid := gets ShortChanID in
      let failPacket :=
        {| incomingChanID := 0; incomingHTLCID := 0;
           outgoingChanID := scid; outgoingHTLCID := ParentIndex pd;
           amount := pdAmount pd;
           htlc := MsgUpdateFailHTLC
             {| failChanID := 0; failID := 0;
                failReason := FailReason pd |};
           obfuscator := None; isRouted := false; localFailure := false |} in
      let* _ := emit EvSignalFreeSlot in
      ret (Some (fst vars, snd vars ++ [failPacket]))
  | Add => processAdd pd vars
  end.

Fixpoint processDescriptors (pds : list PaymentDescriptor) (vars : loopVars) :
    M link (option loopVars) :=
  match pds with
  | [] => ret (Some vars)
  | pd :: rest =>
      let* r := processDescriptor pd vars in
      match r with
      | None => ret None
      | Some vars' => processDescriptors rest vars'
      end
  end.

Definition processLockedInHtlcs (paymentDescriptors : list PaymentDescriptor) :
    M link (list htlcPacket) :=
  let* r := processDescriptors paymentDescriptors (false, []) in
  match r with
  | None => ret []
  | Some (needUpdate, packetsToForward) =>
      if needUpdate then
        let* err := updateCommitTx in
        match err with
        | Some _ =>
            let* _ := fail "unable to update commitment: %v" in ret []
        | None => ret packetsToForward
        end
      else ret packetsToForward
  end.

(** *** Packets from the switch *)

(** The [switch] of [handleDownStreamPkt] on the type of [pkt.htlc]:
    [Some isSettle] where the Go code goes on after the [switch], [None]
    where it returns from inside.  The message of the packet is shared: the
    channel id stamped on an Add is seen by the overflow queue too. *)
Definition handleDownStreamSwitch (pkt : htlcPacket) : M link (option bool) :=
  match htlc pkt with
  | MsgUpdateAddHTLC m =>
      let* cid := gets ChanID in
      let m1 :=
        {| addChanID := cid; addID := addID m; addAmount := addAmount m;
           addPaymentHash := addPaymentHash m; addExpiry := addExpiry m;
           addOnionBlob := addOnionBlob m |} in
      let pkt1 :=
        {| incomingChanID := incomingChanID pkt;
           incomingHTLCID := incomingHTLCID pkt;
           outgoingChanID := outgoingChanID pkt;
           outgoingHTLCID := outgoingHTLCID pkt;
           amount := amount pkt; htlc := MsgUpdateAddHTLC m1;
           obfuscator := obfuscator pkt; isRouted := isRouted pkt;
           localFailure := localFailure pkt |} in
      let* r := callChannel (EvAddHTLC m1) (AddHTLC m1) in
      match r with
      | Err ErrMaxHTLCNumber =>
          let* q := gets overflowQueue in
          let* _ := setOverflowQueue (queueAddPkt pkt1 q) in
          ret None
      | Err _ =>
          let failure := FailTemporaryChannelFailure None in
          let forwardFailure (reason : OpaqueReason) (localFailure : bool) :=
            let failPkt :=
              {| incomingChanID := incomingChanID pkt;
                 incomingHTLCID := incomingHTLCID pkt;
                 outgoingChanID := 0; outgoingHTLCID := 0;
                 amount := addAmount m1;
                 htlc := MsgUpdateFailHTLC
                   {| failChanID := 0; failID := 0; failReason := reason |};
                 obfuscator := None; isRouted := true;
                 localFailure := localFailure |} in
            let* _ := emit (EvSwitchForward [failPkt]) in
            ret None in
          match obfuscator pkt with
          | None =>
              match EncodeFailure failure with
              | Err _ =>
                  let* _ := emit (EvLogError "unable to encode failure: %v") in
                  ret None
              | Ok b => forwardFailure b true
              end
          | Some o =>
              let* _ := emit (EvEncryptFirstHop failure) in
              match EncryptFirstHop o failure with
              | Err _ =>
                  let* _ := emit (EvLogError
                                "unable to obfuscate error: %v") in
                  ret None
              | Ok reason => forwardFailure reason false
              end
          end
      | Ok index =>
          let* scid := gets ShortChanID in
          let* _ := emit (EvSwitchAddCircuit
            {| PaymentHash := addPaymentHash m1;
               IncomingChanID := incomingChanID pkt;
               IncomingHTLCID := incomingHTLCID pkt;
               OutgoingChanID := scid;
               OutgoingHTLCID := index;
               ErrorEncrypterOf := obfuscator pkt |}) in
          let* _ := SendMessage (MsgUpdateAddHTLC
            {| addChanID := cid; addID := index; addAmount := addAmount m;
               addPaymentHash := addPaymentHash m; addExpiry := addExpiry m;
               addOnionBlob := addOnionBlob m |}) in
          ret (Some false)
      end
  | MsgUpdateFufillHTLC m =>
      let* err := callChannel
                    (EvSettleHTLC (fufillPaymentPreimage m)
                       (incomingHTLCID pkt))
                    (SettleHTLC (fufillPaymentPreimage m)
                       (incomingHTLCID pkt)) in
      match err with
      | Some _ =>
          let* _ := fail "unable to settle incoming HTLC: %v" in ret None
      | None =>
          let* cid := gets ChanID in
          let* _ := SendMessage (MsgUpdateFufillHTLC
            {| fufillChanID := cid; fufillID := incomingHTLCID pkt;
               fufillPaymentPreimage := fufillPaymentPreimage m |}) in
          ret (Some true)
      end
  | MsgUpdateFailHTLC m =>
      let* err := callChannel
                    (EvFailHTLC (incomingHTLCID pkt) (failReason m))
                    (FailHTLC (incomingHTLCID pkt) (failReason m)) in
      match err with
      | Some _ =>
          let* _ := emit (EvLogError "unable to cancel HTLC: %v") in ret None
      | None =>
          let* cid := gets ChanID in
          let* _ := SendMessage (MsgUpdateFailHTLC
            {| failChanID := cid; failID := incomingHTLCID pkt;
               failReason := failReason m |}) in
          ret (Some true)
      end
  | _ => ret (Some false)
  end.

Definition handleDownStreamPkt (pkt : htlcPacket) (isReProcess : bool) :
    M link unit :=
  let* r := handleDownStreamSwitch pkt in
  match r with
  | None => ret tt
  | Some isSettle =>
      let* n := gets batchCounter in
      let* _ := setBatchCounter (wrap32 (n + 1)) in
      let* n := gets batchCounter in
      if (n >=? 10) || isSettle then
        let* err := updateCommitTx in
        match err with
        | Some _ => fail "unable to update commitment: %v"
        | None => ret tt
        end
      else ret tt
  end.

(** *** Messages from the peer *)

(** [quit] tells whether the shutdown signal is what the [select] around
    the send on [htlcUpdates] takes. *)
Definition handleUpstreamMsg (quit : bool) (msg : Message) : M link unit :=
  match msg with
  | MsgUpdateAddHTLC m =>
      let* r := callChannel (EvReceiveHTLC m) (ReceiveHTLC m) in
      match r with
      | Err _ => fail "unable to handle upstream add HTLC: %v"
      | Ok _ => ret tt
      end
  | MsgUpdateFufillHTLC m =>
      let pre := fufillPaymentPreimage m in
      let idx := fufillID m in
      let* err := callChannel (EvReceiveHTLCSettle pre idx)
                    (ReceiveHTLCSettle pre idx) in
      match err with
      | Some _ => fail "unable to handle upstream settle HTLC: %v"
      | None => emit (EvAddPreimage pre)
      end
  | MsgUpdateFailMalformedHTLC m =>
      let failure :=
        match malformedFailureCode m with
        | CodeInvalidOnionVersion =>
            (FailInvalidOnionVersion (malformedShaOnionBlob m), false)
        | CodeInvalidOnionHmac =>
            (FailInvalidOnionHmac (malformedShaOnionBlob m), false)
        | CodeInvalidOnionKey =>
            (FailInvalidOnionKey (malformedShaOnionBlob m), false)
        | _ => (FailTemporaryChannelFailure None, true)
        end in
      let* _ := if snd failure
                then emit (EvLogError "Unknown failure code: %v")
                else ret tt in
      match EncodeFailure (fst failure) with
      | Err _ => emit (EvLogError "unable to encode malformed error: %v")
      | Ok b =>
          let* err := callChannel (EvReceiveFailHTLC (malformedID m) b)
                        (ReceiveFailHTLC (malformedID m) b) in
          match err with
          | Some _ => fail "unable to handle upstream fail HTLC: %v"
          | None => ret tt
          end
      end
  | MsgUpdateFailHTLC m =>
      let idx := failID m in
      let* err := callChannel (EvReceiveFailHTLC idx (failReason m))
                    (ReceiveFailHTLC idx (failReason m)) in
      match err with
      | Some _ => fail "unable to handle upstream fail HTLC: %v"
      | None => ret tt
      end
  | MsgCommitSig m =>
      let* err := callChannel
                    (EvReceiveNewCommitment (commitCommitSig m)
                       (commitHtlcSigs m))
                    (ReceiveNewCommitment (commitCommitSig m)
                       (commitHtlcSigs m)) in
      match err with
      | Some e =>
          let* _ :=
            match e with
            | InvalidCommitSigError =>
                let* cid := gets ChanID in
                SendMessage (MsgError
                  {| errorChanID := cid;
                     errorData := errorText e |})
            | _ => ret tt
            end in
          fail "ChannelPoint(%v): unable to accept new commitment: %v"
      | None =>
          let* r := callChannel EvRevokeCurrentCommitment
                      RevokeCurrentCommitment in
          match r with
          | Err _ => emit (EvLogError "unable to revoke commitment: %v")
          | Ok (nextRevocation, currentHtlcs) =>
              let* _ := SendMessage (MsgRevokeAndAck nextRevocation) in
              if quit then ret tt
              else
                let* _ := emit (EvHtlcUpdates currentHtlcs) in
                let* _ := emit EvResetLogCommitTimer in
                let* _ := setLogCommitTick true in
                let* synced := gets (fun l => FullySynced (channel l)) in
                if synced then ret tt
                else
                  let* err := updateCommitTx in
                  match err with
                  | Some _ => fail "unable to update commitment: %v"
                  | None => ret tt
                  end
          end
      end
  | MsgRevokeAndAck m =>
      let* r := callChannel (EvReceiveRevocation m) (ReceiveRevocation m) in
      match r with
      | Err _ => fail "unable to accept revocation: %v"
      | Ok htlcs =>
          let* htlcsToForward := processLockedInHtlcs htlcs in
          emit (EvSwitchForward htlcsToForward)
      end
  | MsgUpdateFee m =>
      let fee := feeFeePerKw m in
      let* err := callChannel (EvReceiveUpdateFee fee)
                    (ReceiveUpdateFee fee) in
      match err with
      | Some _ => fail "error receiving fee update: %v"
      | None => ret tt
      end
  | _ => ret tt
  end.

(** *** Resynchronisation on reconnection *)

(** [htlcsSettled]: the ids of the settles among the re-sent messages. *)
Definition htlcsSettledOf (msgsToReSend : list Message) : gset Z :=
  foldl (fun s msg =>
           match msg with
           | MsgUpdateFufillHTLC settleMsg => {[fufillID settleMsg]} ∪ s
           | _ => s
           end) ∅ msgsToReSend.

Fixpoint sendMessages (msgs : list Message) : M link unit :=
  match msgs with
  | [] => ret tt
  | msg :: rest => let* _ := SendMessage msg in sendMessages rest
  end.

(** [for _, htlc := range activeHTLCs] at the end of [syncChanStates]. *)
Fixpoint settleActiveHtlcs (htlcsSettled : gset Z) (activeHTLCs : list HTLC) :
    M link (option error) :=
  match activeHTLCs with
  | [] => ret None
  | htlc :: rest =>
      if negb (Incoming htlc) then settleActiveHtlcs htlcsSettled rest
      else if bool_decide (HtlcIndex htlc ∈ htlcsSettled) then
        settleActiveHtlcs htlcsSettled rest
      else
        match LookupPreimage (RHash htlc) with
        | None => settleActiveHtlcs htlcsSettled rest
        | Some p =>
            let* err := callChannel (EvSettleHTLC p (HtlcIndex htlc))
                          (SettleHTLC p (HtlcIndex htlc)) in
            match err with
            | Some e =>
                let* _ := fail "unable to settle htlc: %v" in ret (Some e)
            | None =>
                let* err := callRegistry (EvSettleInvoice (RHash htlc))
                              (SettleInvoice (RHash htlc)) in
                match err with
                | Some e =>
                    let* _ := fail "unable to settle invoice: %v" in
                    ret (Some e)
                | None =>
                    let* n := gets batchCounter in
                    let* _ := setBatchCounter (wrap32 (n + 1)) in
                    let* cid := gets ChanID in
                    let* _ := SendMessage (MsgUpdateFufillHTLC
                      {| fufillChanID := cid; fufillID := HtlcIndex htlc;
                         fufillPaymentPreimage := p |}) in
                    settleActiveHtlcs htlcsSettled rest
                end
            end
        end
  end.

Definition syncChanStates (input : syncInput) : M link (option error) :=
  let* c := gets channel in
  match ChanSyncMsg c with
  | Err _ => ret (Some (ErrOther "unable to generate chan sync message"))
  | Ok localChanSyncMsg =>
      let* _ := SendMessage (MsgChannelReestablish localChanSyncMsg) in
      match PeerSendMessage (MsgChannelReestablish localChanSyncMsg) with
      | Some _ => ret (Some (ErrOther "Unable to send chan sync message"))
      | None =>
          match input with
          | SyncQuit => ret (Some (ErrOther "shutting down"))
          | SyncDeadline =>
              ret (Some (ErrOther
                "didn't receive ChannelReestablish before deadline"))
          | SyncUpstream (MsgChannelReestablish remoteChanSyncMsg) =>
              let* locked :=
                if (NextLocalCommitHeight remoteChanSyncMsg =? 1) &&
                   (NextLocalCommitHeight localChanSyncMsg =? 1) &&
                   negb (IsPending c) then
                  match NextRevocationKey c with
                  | Err _ =>
                      ret (Some (ErrOther
                        "unable to create next revocation: %v"))
                  | Ok nextRevocation =>
                      let* cid := gets ChanID in
                      let fundingLockedMsg := MsgFundingLocked
                        {| lockedChanID := cid;
                           lockedNextPerCommitmentPoint := nextRevocation |} in
                      let* _ := SendMessage fundingLockedMsg in
                      match PeerSendMessage fundingLockedMsg with
                      | Some _ =>
                          ret (Some (ErrOther
                            "unable to re-send FundingLocked: %v"))
                      | None => ret None
                      end
                  end
                else ret None in
              match locked with
              | Some e => ret (Some e)
              | None =>
                  let* r := callChannel
                              (EvProcessChanSyncMsg remoteChanSyncMsg)
                              (ProcessChanSyncMsg remoteChanSyncMsg) in
                  match r with
                  | Err _ =>
                      ret (Some (ErrOther
                        "unable to handle upstream reestablish message: %v"))
                  | Ok msgsToReSend =>
                      let* _ := sendMessages msgsToReSend in
                      let htlcsSettled := htlcsSettledOf msgsToReSend in
                      let* activeHTLCs :=
                        gets (fun l => ActiveHtlcs (channel l)) in
                      settleActiveHtlcs htlcsSettled activeHTLCs
                  end
              end
          | SyncUpstream _ =>
              ret (Some (ErrOther
                "first message sent to sync should be ChannelReestablish"))
          end
      end
  end.

(** *** The event loop *)

(** [case cmd := <-l.linkControl] *)
Definition handleLinkControl (cmd : controlCmd) : M link unit :=
  match cmd with
  | CmdPolicyUpdate req =>
      let* _ :=
        if negb (BaseFee (policy req) =? 0) then
          let* c := gets cfg in setCfg (setPolicyBaseFee (BaseFee (policy req)) c)
        else ret tt in
      let* _ :=
        if negb (FeeRate (policy req) =? 0) then
          let* c := gets cfg in setCfg (setPolicyFeeRate (FeeRate (policy req)) c)
        else ret tt in
      let* _ :=
        if negb (TimeLockDelta (policy req) =? 0) then
          let* c := gets cfg in
          setCfg (setPolicyTimeLockDelta (TimeLockDelta (policy req)) c)
        else ret tt in
      if done req then emit EvCloseDone else ret tt
  | _ => ret tt
  end.

(** One turn of the [select] of [htlcManager].  A tick of the log-commit
    timer is received only while [logCommitTick] is set, and a packet of
    the overflow queue only while the queue holds one: elsewhere the turn
    does nothing. *)
Definition htlcManagerStep (ev : loopEvent) : M link loopCtl :=
  match ev with
  | BlockEpoch ok height =>
      if negb ok then ret BreakOut
      else
        let* _ := setBestHeight (wrap32 height) in
        let* c := gets channel in
        if negb (IsInitiator c) then ret Continue
        else
          match sampleNetworkFee with
          | Err _ =>
              let* _ := emit (EvLogError "unable to sample network fee: %v") in
              ret Continue
          | Ok feePerKw =>
              let commitFee := CommitFeeRate c in
              if negb (shouldAdjustCommitFee feePerKw commitFee) then
                ret Continue
              else
                let* err := updateChannelFee feePerKw in
                match err with
                | Some _ =>
                    let* _ := emit (EvLogError
                                  "unable to update fee rate: %v") in
                    ret Continue
                | None => ret Continue
                end
          end
  | UnilateralClosure =>
      let* _ := emit EvWipeChannel in ret BreakOut
  | LogCommitTick =>
      let* armed := gets logCommitTick in
      if negb armed then ret Continue
      else
        let* synced := gets (fun l => FullySynced (channel l)) in
        if synced then ret Continue
        else
          let* err := updateCommitTx in
          match err with
          | Some _ =>
              let* _ := fail "unable to update commitment: %v" in ret BreakOut
          | None => ret Continue
          end
  | BatchTick =>
      let* n := gets batchCounter in
      if n =? 0 then ret Continue
      else
        let* err := updateCommitTx in
        match err with
        | Some _ =>
            let* _ := fail "unable to update commitment: %v" in ret BreakOut
        | None => ret Continue
        end
  | OverflowOutgoing =>
      let* q := gets overflowQueue in
      match q with
      | [] => ret Continue
      | packet :: rest =>
          let* _ := setOverflowQueue rest in
          match htlc packet with
          | MsgUpdateAddHTLC _ =>
              let* _ := handleDownStreamPkt packet true in ret Continue
          | _ => ret Panic
          end
      end
  | Downstream pkt =>
      let* q := gets overflowQueue in
      match htlc pkt with
      | MsgUpdateAddHTLC _ =>
          if negb (queueLength q =? 0) then
            let* _ := setOverflowQueue (queueAddPkt pkt q) in ret Continue
          else
            let* _ := handleDownStreamPkt pkt false in ret Continue
      | _ =>
          let* _ := handleDownStreamPkt pkt false in ret Continue
      end
  | Upstream msg quit =>
      let* _ := handleUpstreamMsg quit msg in ret Continue
  | LinkControl cmd =>
      let* _ := handleLinkControl cmd in ret Continue
  | Quit => ret BreakOut
  end.

Fixpoint htlcManagerLoop (evs : list loopEvent) : M link loopCtl :=
  match evs with
  | [] => ret Continue
  | ev :: rest =>
      let* ctl := htlcManagerStep ev in
      match ctl with
      | Continue => htlcManagerLoop rest
      | _ => ret ctl
      end
  end.

(** [htlcManager] on the events its [select]s receive, in order: the
    resynchronisation when [SyncStates] is set, then the loop.  The result
    is [Continue] while the loop is still waiting for an event; when it is
    left, the deferred function cancels the block epochs. *)
Definition htlcManager (input : syncInput) (evs : list loopEvent) :
    M link loopCtl :=
  let* c := gets cfg in
  let* started :=
    if SyncStates c then
      let* err := syncChanStates input in
      match err with
      | Some e => let* _ := fail (errorText e) in ret BreakOut
      | None => ret Continue
      end
    else ret Continue in
  let* ctl :=
    match started with
    | Continue => htlcManagerLoop evs
    | _ => ret started
    end in
  match ctl with
  | Continue => ret Continue
  | _ => let* _ := emit EvCancelBlockEpochs in ret ctl
  end.

End Link.

(** ** A small channel machine, registry and services

    Concrete collaborators on which the link can be run: a channel machine
    with a revocation window, a number of free HTLC slots and a switch that
    makes it refuse every update; a registry that is a finite map from
    payment hashes to invoices. *)

Module Scenario.

Record toyChannel := {
  toyWindow : bool;
  toyFreeSlots : Z;
  toyBroken : bool;
  toyRevokeFails : bool;
  toyNextIndex : Z;
  toySynced : bool;
  toyInitiator : bool;
  toyBalance : Z;
  toyActive : list HTLC;
  toyResend : list Message
}.

Definition internalError : error := ErrOther "internal error".

Definition toyUpdate (c : toyChannel) : option error * toyChannel :=
  (if toyBroken c then Some internalError else None, c).

Definition toyAdd (c : toyChannel) : result Z * toyChannel :=
  if toyBroken c then (Err internalError, c)
  else if toyFreeSlots c <=? 0 then (Err ErrMaxHTLCNumber, c)
  else
    (Ok (toyNextIndex c),
     {| toyWindow := toyWindow c; toyFreeSlots := toyFreeSlots c - 1;
        toyBroken := toyBroken c; toyRevokeFails := toyRevokeFails c;
        toyNextIndex := toyNextIndex c + 1; toySynced := false;
        toyInitiator := toyInitiator c; toyBalance := toyBalance c;
        toyActive := toyActive c; toyResend := toyResend c |}).

Definition toyRevocation : RevokeAndAck :=
  {| revokeChanID := 7; revokeRevocation := 1; revokeNextRevocationKey := 2 |}.

Definition toyReestablish : ChannelReestablish :=
  {| reestChanID := 7; NextLocalCommitHeight := 5;
     RemoteCommitTailHeight := 4; LastRemoteCommitSecret := 0 |}.

#[global] Instance toyLightningChannel : LightningChannel toyChannel := {
  AddHTLC := fun _ c => toyAdd c;
  SettleHTLC := fun _ _ c => toyUpdate c;
  FailHTLC := fun _ _ c => toyUpdate c;
  MalformedFailHTLC := fun _ _ _ c => toyUpdate c;
  ReceiveHTLC := fun _ c =>
    if toyBroken c then (Err internalError, c) else (Ok (toyNextIndex c), c);
  ReceiveHTLCSettle := fun _ _ c => toyUpdate c;
  ReceiveFailHTLC := fun _ _ c => toyUpdate c;
  ReceiveNewCommitment := fun _ _ c => toyUpdate c;
  RevokeCurrentCommitment := fun c =>
    if toyRevokeFails c then (Err internalError, c)
    else (Ok (toyRevocation, toyActive c), c);
  SignNextCommitment := fun c =>
    if toyBroken c then (Err internalError, c)
    else if toyWindow c then (Ok ([], []), c)
    else (Err ErrNoWindow, c);
  ReceiveRevocation := fun _ c =>
    if toyBroken c then (Err internalError, c) else (Ok [], c);
  ReceiveUpdateFee := fun _ c => toyUpdate c;
  channel_UpdateFee := fun _ c => toyUpdate c;
  ProcessChanSyncMsg := fun _ c =>
    if toyBroken c then (Err internalError, c) else (Ok (toyResend c), c);
  ChanSyncMsg := fun _ => Ok toyReestablish;
  NextRevocationKey := fun _ => Ok 2;
  FullySynced := toySynced;
  IsPending := fun _ => false;
  IsInitiator := toyInitiator;
  RemoteNextRevocation := fun _ => Some 2;
  CommitFeeRate := fun _ => 6000;
  AvailableBalance := toyBalance;
  ActiveHtlcs := toyActive;
  channel_ShortChanID := fun _ => 42;
  channel_ChanID := fun _ => 7
}.

Definition toySettleInvoice (h : Hash32) (reg : gmap Z Invoice) :
    option error * gmap Z Invoice :=
  match reg !! h with
  | Some i =>
      (None, <[h := {| Value := Value i; Settled := true;
                       PaymentPreimage := PaymentPreimage i |}]> reg)
  | None => (Some (ErrOther "unable to locate invoice"), reg)
  end.

#[global] Instance toyInvoiceDatabase : InvoiceDatabase (gmap Z Invoice) := {
  LookupInvoice := fun h reg =>
    match reg !! h with
    | Some i => Ok i
    | None => Err (ErrOther "unable to locate invoice")
    end;
  SettleInvoice := toySettleInvoice
}.

Definition toyEncrypter : ErrorEncrypter :=
  {| EncryptFirstHop := fun _ => Ok [] |}.

Definition toyIterator (fwdInfo : ForwardingInfo) : HopIterator :=
  {| ForwardingInstructions := fwdInfo; EncodeNextHop := Ok [] |}.

(** Services whose hop decoder gives the same forwarding instructions for
    every onion. *)
Definition toyServices (fwdInfo : ForwardingInfo)
    (update : result ChannelUpdate) (preimages : gmap Z Z) : LinkServices :=
  {| DecodeOnionObfuscator := fun _ => (toyEncrypter, CodeNone);
     DecodeHopIterator := fun _ _ => (toyIterator fwdInfo, CodeNone);
     GetLastChannelUpdate := update;
     LookupPreimage := fun h => preimages !! h;
     EstimateFeePerWeight := fun _ => Ok 6;
     PeerSendMessage := fun _ => None;
     EncodeFailure := fun _ => Ok [];
     Sum256 := fun _ => 0;
     OnionPacketSize := 1366 |}.

Definition openChannel : toyChannel :=
  {| toyWindow := true; toyFreeSlots := 483; toyBroken := false;
     toyRevokeFails := false; toyNextIndex := 0; toySynced := true;
     toyInitiator := false; toyBalance := 5000000; toyActive := [];
     toyResend := [] |}.

(** The policy of the forwarding scenarios of the specification. *)
Definition scenarioPolicy : ForwardingPolicy :=
  {| MinHTLC := 1000; BaseFee := 1000; FeeRate := 1; TimeLockDelta := 144 |}.

Definition scenarioCfg (debug hodl : bool) : ChannelLinkConfig :=
  {| FwrdingPolicy := scenarioPolicy; DebugHTLC := debug; HodlHTLC := hodl;
     SyncStates := false |}.

Definition scenarioLink (c : toyChannel) (conf : ChannelLinkConfig)
    (reg : gmap Z Invoice) (q : list htlcPacket) (n : Z) :
    channelLink toyChannel (gmap Z Invoice) :=
  {| batchCounter := n; bestHeight := 500000; channel := c; cfg := conf;
     registry := reg; overflowQueue := q; logCommitTick := false |}.

Definition lockedInAdd (amt timeout : Z) : PaymentDescriptor :=
  {| EntryType := Add; ParentIndex := 0; pdAmount := amt; RPreimage := 0;
     pdRHash := 99; FailReason := []; pdOnionBlob := []; pdHtlcIndex := 3;
     Timeout := timeout |}.

Definition downstreamAdd (amt : Z) : htlcPacket :=
  {| incomingChanID := 41; incomingHTLCID := 1; outgoingChanID := 42;
     outgoingHTLCID := 0; amount := amt;
     htlc := MsgUpdateAddHTLC
       {| addChanID := 0; addID := 0; addAmount := amt;
          addPaymentHash := 99; addExpiry := 500100; addOnionBlob := [] |};
     obfuscator := Some toyEncrypter; isRouted := false;
     localFailure := false |}.

(** A hop that forwards 999999 msat to channel 43, and the final hop. *)
Definition forwardInfo : ForwardingInfo :=
  {| NextHop := 43; AmountToForward := 999999; OutgoingCTLV := 500056 |}.

Definition exitInfo (amt ctlv : Z) : ForwardingInfo :=
  {| NextHop := exitHop; AmountToForward := amt; OutgoingCTLV := ctlv |}.

Definition forwardServices (fwdInfo : ForwardingInfo) : LinkServices :=
  toyServices fwdInfo (Ok []) ∅.

Definition exitServices (ctlv : Z) : LinkServices :=
  toyServices (exitInfo 123000 ctlv) (Ok []) ∅.

(** A registry with one open invoice of value 0 for the hash 99. *)
Definition zeroValueInvoice : Invoice :=
  {| Value := 0; Settled := false; PaymentPreimage := 77 |}.

Definition zeroValueRegistry : gmap Z Invoice := {[ 99 := zeroValueInvoice ]}.

Definition plainLink : channelLink toyChannel (gmap Z Invoice) :=
  scenarioLink openChannel (scenarioCfg false false) ∅ [] 0.

Definition closedWindowChannel : toyChannel :=
  {| toyWindow := false; toyFreeSlots := 483; toyBroken := false;
     toyRevokeFails := false; toyNextIndex := 0; toySynced := false;
     toyInitiator := false; toyBalance := 5000000; toyActive := [];
     toyResend := [] |}.

Definition brokenChannel : toyChannel :=
  {| toyWindow := true; toyFreeSlots := 483; toyBroken := true;
     toyRevokeFails := true; toyNextIndex := 0; toySynced := false;
     toyInitiator := false; toyBalance := 5000000; toyActive := [];
     toyResend := [] |}.

Definition revokeFailsChannel : toyChannel :=
  {| toyWindow := true; toyFreeSlots := 483; toyBroken := false;
     toyRevokeFails := true; toyNextIndex := 0; toySynced := false;
     toyInitiator := false; toyBalance := 5000000; toyActive := [];
     toyResend := [] |}.

Definition downstreamFail : htlcPacket :=
  {| incomingChanID := 41; incomingHTLCID := 1; outgoingChanID := 42;
     outgoingHTLCID := 0; amount := 1000;
     htlc := MsgUpdateFailHTLC
       {| failChanID := 0; failID := 0; failReason := [] |};
     obfuscator := None; isRouted := false; localFailure := false |}.

Definition someCommitSig : CommitSig :=
  {| commitChanID := 7; commitCommitSig := []; commitHtlcSigs := [] |}.

(** Reconnection with one active incoming HTLC whose preimage is known. *)
Definition activeIncoming : HTLC :=
  {| Incoming := true; HtlcIndex := 3; RHash := 99; Amt := 123456 |}.


Definition resyncLink : channelLink toyChannel (gmap Z Invoice) :=
  scenarioLink
    {| toyWindow := true; toyFreeSlots := 483; toyBroken := false;
       toyRevokeFails := false; toyNextIndex := 4; toySynced := true;
       toyInitiator := false; toyBalance := 5000000;
       toyActive := [activeIncoming]; toyResend := [] |}
    (scenarioCfg false false) zeroValueRegistry [] 0.

(** A link whose overflow queue outweighs its balance. *)
Definition starvedLink : channelLink toyChannel (gmap Z Invoice) :=
  scenarioLink
    {| toyWindow := true; toyFreeSlots := 0; toyBroken := false;
       toyRevokeFails := false; toyNextIndex := 0; toySynced := true;
       toyInitiator := false; toyBalance := 1000; toyActive := [];
       toyResend := [] |}
    (scenarioCfg false false) ∅ [downstreamAdd 1500] 0.

(** A settle of the switch for the incoming HTLC 1, two locked-in
    resolutions, and a link that is to resynchronise. *)
Definition downstreamSettle : htlcPacket :=
  {| incomingChanID := 41; incomingHTLCID := 1; outgoingChanID := 42;
     outgoingHTLCID := 0; amount := 1000;
     htlc := MsgUpdateFufillHTLC
       {| fufillChanID := 0; fufillID := 0; fufillPaymentPreimage := 77 |};
     obfuscator := None; isRouted := false; localFailure := false |}.

Definition lockedInSettle : PaymentDescriptor :=
  {| EntryType := Settle; ParentIndex := 5; pdAmount := 1000;
     RPreimage := 77; pdRHash := 99; FailReason := []; pdOnionBlob := [];
     pdHtlcIndex := 0; Timeout := 0 |}.

Definition lockedInFail : PaymentDescriptor :=
  {| EntryType := Fail; ParentIndex := 6; pdAmount := 2000;
     RPreimage := 0; pdRHash := 98; FailReason := []; pdOnionBlob := [];
     pdHtlcIndex := 1; Timeout := 0 |}.

Definition syncingLink : channelLink toyChannel (gmap Z Invoice) :=
  scenarioLink openChannel
    {| FwrdingPolicy := scenarioPolicy; DebugHTLC := false;
       HodlHTLC := false; SyncStates := true |}
    ∅ [] 0.

End Scenario.

(** ** Reading a trace *)

(** A trace hands a CommitSig to the peer. *)
Definition sendsCommitSig (tr : list Event) : Prop :=
  exists m, In (EvSendMessage (MsgCommitSig m)) tr.



(** The test of the scan after a resynchronisation, as the specification
    words it: incoming, index not among the re-sent settles, preimage
    known to the cache. *)
Definition settleCandidate `{LinkServices} (htlcsSettled : gset Z)
    (h : HTLC) : bool :=
  Incoming h && negb (bool_decide (HtlcIndex h ∈ htlcsSettled)) &&
  match LookupPreimage (RHash h) with Some _ => true | None => false end.


(** The link called [fail]: the reason is logged and the peer is told to
    disconnect with it, at the end of the trace. *)
Definition endsInFail (tr : list Event) : Prop :=
  exists format pre, tr = pre ++ [EvLogError format; EvDisconnect format].

Definition disconnects (tr : list Event) : Prop :=
  exists reason, In (EvDisconnect reason) tr.


(** A turn of the loop that ends in [fail] and leaves the loop as [ctl]
    says. *)
Definition failsWith {Chan Reg : Type}
    (run : loopCtl * channelLink Chan Reg * list Event) (ctl : loopCtl) :
    Prop :=
  fst (fst run) = ctl /\ endsInFail (snd run).

(** ** Reading packets and links *)

(** The packet carries an Add. *)
Definition isAddPacket (pkt : htlcPacket) : Prop :=
  exists m, htlc pkt = MsgUpdateAddHTLC m.

(** The link with another channel machine, overflow queue or counter. *)
Definition withChannel {Chan Reg : Type} (l : channelLink Chan Reg)
    (c : Chan) : channelLink Chan Reg :=
  {| batchCounter := batchCounter l; bestHeight := bestHeight l;
     channel := c; cfg := cfg l; registry := registry l;
     overflowQueue := overflowQueue l; logCommitTick := logCommitTick l |}.

Definition withOverflowQueue {Chan Reg : Type} (l : channelLink Chan Reg)
    (q : list htlcPacket) : channelLink Chan Reg :=
  {| batchCounter := batchCounter l; bestHeight := bestHeight l;
     channel := channel l; cfg := cfg l; registry := registry l;
     overflowQueue := q; logCommitTick := logCommitTick l |}.

Definition withBatchCounter {Chan Reg : Type} (l : channelLink Chan Reg)
    (n : Z) : channelLink Chan Reg :=
  {| batchCounter := n; bestHeight := bestHeight l;
     channel := channel l; cfg := cfg l; registry := registry l;
     overflowQueue := overflowQueue l; logCommitTick := logCommitTick l |}.

(** An Add and its packet once [handleDownStreamPkt] has stamped the
    channel id of the link on the message. *)
Definition stampAdd (cid : ChannelID) (m : UpdateAddHTLC) : UpdateAddHTLC :=
  {| addChanID := cid; addID := addID m; addAmount := addAmount m;
     addPaymentHash := addPaymentHash m; addExpiry := addExpiry m;
     addOnionBlob := addOnionBlob m |}.

Definition stampPacket (cid : ChannelID) (pkt : htlcPacket)
    (m : UpdateAddHTLC) : htlcPacket :=
  {| incomingChanID := incomingChanID pkt;
     incomingHTLCID := incomingHTLCID pkt;
     outgoingChanID := outgoingChanID pkt;
     outgoingHTLCID := outgoingHTLCID pkt;
     amount := amount pkt; htlc := MsgUpdateAddHTLC (stampAdd cid m);
     obfuscator := obfuscator pkt; isRouted := isRouted pkt;
     localFailure := localFailure pkt |}.

(** No settle, on the channel machine or in the registry, is in the trace. *)
Definition neverSettles (tr : list Event) : Prop :=
  (forall p i, ~ In (EvSettleHTLC p i) tr) /\
  (forall h, ~ In (EvSettleInvoice h) tr).

(** No message is handed to the peer in the trace. *)
Definition sendsNothing (tr : list Event) : Prop :=
  forall m, ~ In (EvSendMessage m) tr.

(** What [handleDownStreamPkt] does after its [switch], from the link
    [l1] with the counter already incremented: a commitment is signed when
    the counter has reached ten or the packet was a settle or a fail. *)
Definition commitIfDue `{LightningChannel Chan} {Reg : Type} (isSettle : bool)
    (l1 : channelLink Chan Reg) : unit * channelLink Chan Reg * list Event :=
  if (batchCounter l1 >=? 10) || isSettle then
    let '(err, l2, tr) := updateCommitTx l1 in
    (tt, l2,
     tr ++ match err with
           | Some _ =>
               [EvLogError "unable to update commitment: %v";
                EvDisconnect "unable to update commitment: %v"]
           | None => []
           end)
  else (tt, l1, []).

(** The Fail packet that goes back to the switch for an Add the channel
    machine refused. *)
Definition refusedAddPacket (pkt : htlcPacket) (m : UpdateAddHTLC)
    (reason : OpaqueReason) (isLocal : bool) : htlcPacket :=
  {| incomingChanID := incomingChanID pkt;
     incomingHTLCID := incomingHTLCID pkt;
     outgoingChanID := 0; outgoingHTLCID := 0;
     amount := addAmount m;
     htlc := MsgUpdateFailHTLC
       {| failChanID := 0; failID := 0; failReason := reason |};
     obfuscator := None; isRouted := true; localFailure := isLocal |}.

(** The packet that goes to the switch for a locked-in settle or fail of
    an HTLC this link had forwarded. *)
Definition resolutionPacket (scid : ShortChannelID) (pd : PaymentDescriptor) :
    htlcPacket :=
  {| incomingChanID := 0; incomingHTLCID := 0;
     outgoingChanID := scid; outgoingHTLCID := ParentIndex pd;
     amount := pdAmount pd;
     htlc :=
       match EntryType pd with
       | Fail =>
           MsgUpdateFailHTLC
             {| failChanID := 0; failID := 0; failReason := FailReason pd |}
       | _ =>
           MsgUpdateFufillHTLC
             {| fufillChanID := 0; fufillID := 0;
                fufillPaymentPreimage := RPreimage pd |}
       end;
     obfuscator := None; isRouted := false; localFailure := false |}.

(** The tail of a trace after a failed [updateCommitTx]. *)
Definition commitFailure (err : option error) : list Event :=
  match err with
  | Some _ =>
      [EvLogError "unable to update commitment: %v";
       EvDisconnect "unable to update commitment: %v"]
  | None => []
  end.

(** The packet that goes to the switch for an Add to forward. *)
Definition forwardedPacket (scid : ShortChannelID) (pd : PaymentDescriptor)
    (fwdInfo : ForwardingInfo) (obfuscator : ErrorEncrypter)
    (blob : OnionBlob) : htlcPacket :=
  {| incomingChanID := scid; incomingHTLCID := pdHtlcIndex pd;
     outgoingChanID := NextHop fwdInfo; outgoingHTLCID := 0;
     amount := AmountToForward fwdInfo;
     htlc := MsgUpdateAddHTLC
       {| addChanID := 0; addID := 0;
          addAmount := AmountToForward fwdInfo;
          addPaymentHash := pdRHash pd;
          addExpiry := OutgoingCTLV fwdInfo;
          addOnionBlob := blob |};
     obfuscator := Some obfuscator; isRouted := false;
     localFailure := false |}.

(** The [select] of [syncChanStates] received something else than a
    ChannelReestablish of the peer. *)
Definition noReestablish (input : syncInput) : Prop :=
  match input with
  | SyncUpstream (MsgChannelReestablish _) => False
  | _ => True
  end.

(** ** Frames *)

(** The computation [c] leaves the part [f] of the state as it found it. *)
Definition keeps {S X A : Type} (f : S -> X) (c : M S A) : Prop :=
  forall l, f (snd (fst (c l))) = f l.

Definition isLinkControl (ev : loopEvent) : Prop :=
  match ev with LinkControl _ => True | _ => False end.

Definition isBlockEpoch (ev : loopEvent) : Prop :=
  match ev with BlockEpoch _ _ => True | _ => False end.

Definition isQueueEvent (ev : loopEvent) : Prop :=
  match ev with Downstream _ | OverflowOutgoing => True | _ => False end.

Definition isUpstream (ev : loopEvent) : Prop :=
  match ev with Upstream _ _ => True | _ => False end.

(** Every event of the computation [c] satisfies [P]; the computation
    [c] always gives the result [r]. *)
Definition emitsOnly {S A : Type} (P : Event -> Prop) (c : M S A) : Prop :=
  forall l e, In e (snd (c l)) -> P e.

Definition returns {S A : Type} (r : A) (c : M S A) : Prop :=
  forall l, fst (fst (c l)) = r.

Definition notDisconnect (e : Event) : Prop :=
  match e with EvDisconnect _ => False | _ => True end.

(** A turn of the loop of [processLockedInHtlcs] that goes on has kept
    the packets to forward or added one at their end. *)
Definition addsAtMostOne {S : Type} (vars : loopVars)
    (c : M S (option loopVars)) : Prop :=
  forall l needUpdate pkts,
    fst (fst (c l)) = Some (needUpdate, pkts) ->
    pkts = snd vars \/ exists p, pkts = snd vars ++ [p].

(** * Properties *)

(** ** Machine integers *)

Lemma wrap64_small z : isUint64 z -> wrap64 z = z.
Proof. unfold isUint64, wrap64. intros Hz. apply Z.mod_small. lia. Qed.


Lemma wrapInt64_small z : - 2 ^ 63 <= z <= maxInt64 -> wrapInt64 z = z.
Proof.
  unfold wrapInt64, maxInt64. intros Hz.
  rewrite Z.mod_small by lia. lia.
Qed.

Lemma wrap64_range z : isUint64 (wrap64 z).
Proof. unfold isUint64, wrap64. apply Z.mod_pos_bound. lia. Qed.


Lemma tenth_of_amount chanFee :
  0 <= chanFee -> chanFee * 10 <= maxInt64 ->
  Z.quot (wrapInt64 (chanFee * 10)) 100 = chanFee / 10.
Proof.
  intros Hpos Hfit.
  rewrite wrapInt64_small by (unfold maxInt64 in *; lia).
  rewrite Z.quot_div_nonneg by lia.
  replace 100 with (10 * 10) by lia.
  apply Z.div_mul_cancel_r; lia.
Qed.

(** ** The fee arithmetic *)

(** Without overflow, [ExpectedFee] is the exact fee in the integers. *)
Lemma ExpectedFee_exact (f : ForwardingPolicy) (amt : Z) :
  0 <= BaseFee f -> 0 <= FeeRate f -> 0 <= amt ->
  amt * FeeRate f < 2 ^ 64 ->
  BaseFee f + amt * FeeRate f / 1000000 < 2 ^ 64 ->
  ExpectedFee f amt = BaseFee f + amt * FeeRate f / 1000000.
Proof.
  intros Hb Hr Ha Hmul Hsum. unfold ExpectedFee.
  rewrite (wrap64_small (amt * FeeRate f)) by (unfold isUint64; nia).
  apply wrap64_small. unfold isUint64. split; [|lia].
  assert (0 <= amt * FeeRate f / 1000000) by (apply Z.div_pos; nia).
  lia.
Qed.

(** C2, the claim as stated fails: with equal fees below ten, the distance
    0 reaches the tenth 0 of the channel fee, yet no adjustment is made. *)
Lemma C2_equal_fees_counterexample :
  ~ (shouldAdjustCommitFee 5 5 = true <-> Z.abs (5 - 5) >= 5 / 10).
Proof.
  intros [_ H].
  assert (Hfalse : shouldAdjustCommitFee 5 5 = false) by reflexivity.
  rewrite H in Hfalse; [discriminate|].
  vm_compute. discriminate.
Qed.

(** C2, amended: for non-negative fees whose tenfold fits an [int64],
    [shouldAdjustCommitFee] holds exactly when the two fees differ and their
    distance is at least a tenth of the channel fee. *)
Theorem C2_shouldAdjustCommitFee_iff (netFee chanFee : Z) :
  0 <= netFee <= maxInt64 ->
  0 <= chanFee -> chanFee * 10 <= maxInt64 ->
  shouldAdjustCommitFee netFee chanFee = true <->
  netFee <> chanFee /\ Z.abs (netFee - chanFee) >= chanFee / 10.
Proof.
  intros Hnet Hpos Hfit. unfold shouldAdjustCommitFee.
  rewrite (tenth_of_amount chanFee Hpos Hfit).
  assert (Htenth : 0 <= chanFee / 10 <= chanFee).
  { split; [apply Z.div_pos; lia|].
    apply Z.div_le_upper_bound; lia. }
  rewrite !wrapInt64_small by (unfold maxInt64 in *; lia).
  rewrite Z.gtb_ltb, Z.geb_leb.
  destruct (Z.ltb_spec chanFee netFee) as [Hgt|Hle];
    destruct (Z.leb_spec (chanFee + chanFee / 10) netFee) as [Hge|Hlt];
    destruct (Z.ltb_spec netFee chanFee) as [Hlt'|Hge'];
    destruct (Z.leb_spec netFee (chanFee - chanFee / 10)) as [Hle'|Hgt'];
    simpl; split; intros H; try discriminate; try reflexivity; try lia.
Qed.

(** A network fee of 6600 against a channel fee of 6000: ten percent up. *)
Lemma C2_shouldAdjustCommitFee_iff_witness :
  shouldAdjustCommitFee 6600 6000 = true <->
  6600 <> 6000 /\ Z.abs (6600 - 6000) >= 6000 / 10.
Proof.
  apply (C2_shouldAdjustCommitFee_iff 6600 6000); unfold maxInt64; lia.
Defined.

(** ** The link, for every channel machine, registry and services *)

Section LinkProperties.

Context {Chan Reg : Type}.
Context `{LC : LightningChannel Chan} `{ID : InvoiceDatabase Reg}.
Context `{LS : LinkServices}.

Abbreviation link := (channelLink Chan Reg).

Lemma TotalHtlcAmount_from_range (q : list htlcPacket) (acc : Z) :
  isUint64 acc ->
  isUint64 (fold_left (fun a pkt => wrap64 (a + amount pkt)) q acc).
Proof.
  revert acc. induction q as [|pkt q IH]; intros acc Hacc; simpl.
  - exact Hacc.
  - apply IH, wrap64_range.
Qed.

Lemma TotalHtlcAmount_range (q : list htlcPacket) :
  isUint64 (TotalHtlcAmount q).
Proof.
  apply TotalHtlcAmount_from_range. unfold isUint64. lia.
Qed.

(** C10: [Bandwidth] is the available balance minus the total of the
    overflow queue in [uint64]: the exact difference while the queue total
    does not exceed the balance, and otherwise the difference wrapped
    modulo 2^64, a value above the balance and never zero. *)
Theorem C10_bandwidth_wraps (l : link) :
  isUint64 (AvailableBalance (channel l)) ->
  let avail := AvailableBalance (channel l) in
  let total := TotalHtlcAmount (overflowQueue l) in
  Bandwidth l = (avail - total) mod 2 ^ 64 /\
  (total <= avail -> Bandwidth l = avail - total) /\
  (avail < total ->
   Bandwidth l = 2 ^ 64 - (total - avail) /\ avail < Bandwidth l /\
   0 < Bandwidth l).
Proof.
  intros Havail avail total.
  pose proof (TotalHtlcAmount_range (overflowQueue l)) as Htotal.
  fold total in Htotal. fold avail in Havail.
  unfold isUint64 in *.
  assert (Hdef : Bandwidth l = (avail - total) mod 2 ^ 64) by reflexivity.
  split; [exact Hdef|]. split.
  - intros Hle. rewrite Hdef. apply Z.mod_small. lia.
  - intros Hlt.
    assert (Hwrap : (avail - total) mod 2 ^ 64 = 2 ^ 64 - (total - avail)).
    { symmetry. apply (Z.mod_unique _ _ (-1)); lia. }
    rewrite Hdef, Hwrap. lia.
Qed.

(** C4, amended: [updateCommitTx] hands a CommitSig to the peer exactly
    when the channel machine signs; then it returns success and
    [batchCounter] is zero.  When nothing is sent [batchCounter] keeps its
    value; on [ErrNoWindow] the call still returns success. *)
Theorem C4_updateCommitTx_batchCounter (l : link) :
  let '(err, l', tr) := updateCommitTx l in
  (sendsCommitSig tr <-> exists s, fst (SignNextCommitment (channel l)) = Ok s) /\
  (sendsCommitSig tr -> err = None /\ batchCounter l' = 0) /\
  (~ sendsCommitSig tr -> batchCounter l' = batchCounter l) /\
  (fst (SignNextCommitment (channel l)) = Err ErrNoWindow ->
   err = None /\ ~ sendsCommitSig tr) /\
  (err = None ->
   sendsCommitSig tr \/
   fst (SignNextCommitment (channel l)) = Err ErrNoWindow).
Proof.
  unfold updateCommitTx, bind, callChannel, sendsCommitSig.
  destruct (SignNextCommitment (channel l)) as [[[sig sigs]|e] c]; simpl.
  - assert (Hsent : exists m, In (EvSendMessage (MsgCommitSig m))
        [EvSignNextCommitment;
         EvSendMessage (MsgCommitSig
           {| commitChanID := channel_ChanID c; commitCommitSig := sig;
              commitHtlcSigs := sigs |});
         EvStopLogCommitTimer]).
    { eexists. right. left. reflexivity. }
    split; [|split; [|split; [|split]]].
    + split; intros _; [eexists; reflexivity|exact Hsent].
    + intros _. split; reflexivity.
    + intros H. contradiction.
    + discriminate.
    + intros _. left. exact Hsent.
  - assert (Hnone : ~ (exists m,
        In (EvSendMessage (MsgCommitSig m)) [EvSignNextCommitment])).
    { intros [m [H|[]]]. discriminate. }
    assert (Hnok : ~ (exists s : Sig * list Sig, Err e = Ok s)).
    { intros [s Hs]. discriminate. }
    destruct e; simpl;
      (split; [tauto|split; [tauto|split; [reflexivity|split]]]);
      try discriminate; try tauto;
      intros _; right; reflexivity.
Qed.

(** C3, amended: a policy update overwrites [BaseFee], [FeeRate] and
    [TimeLockDelta] where the new value is not zero and keeps them where
    it is zero; [MinHTLC] and all the other fields of the link keep their
    values; the completion signal is closed when there is one, and the
    loop goes on. *)
Theorem C3_policy_update_merge (l : link) (req : policyUpdate) :
  htlcManagerStep (LinkControl (CmdPolicyUpdate req)) l =
  (Continue,
   {| batchCounter := batchCounter l; bestHeight := bestHeight l;
      channel := channel l;
      cfg :=
        {| FwrdingPolicy :=
             {| MinHTLC := MinHTLC (FwrdingPolicy (cfg l));
                BaseFee :=
                  if BaseFee (policy req) =? 0
                  then BaseFee (FwrdingPolicy (cfg l))
                  else BaseFee (policy req);
                FeeRate :=
                  if FeeRate (policy req) =? 0
                  then FeeRate (FwrdingPolicy (cfg l))
                  else FeeRate (policy req);
                TimeLockDelta :=
                  if TimeLockDelta (policy req) =? 0
                  then TimeLockDelta (FwrdingPolicy (cfg l))
                  else TimeLockDelta (policy req) |};
           DebugHTLC := DebugHTLC (cfg l); HodlHTLC := HodlHTLC (cfg l);
           SyncStates := SyncStates (cfg l) |};
      registry := registry l; overflowQueue := overflowQueue l;
      logCommitTick := logCommitTick l |},
   if done req then [EvCloseDone] else []).
Proof.
  destruct l as [n h c [[mh bf fr tl] dbg hodl sync] r q t].
  destruct req as [[mh' bf' fr' tl'] d].
  unfold htlcManagerStep, handleLinkControl, bind, gets, setCfg, ret, emit.
  simpl.
  destruct (bf' =? 0), (fr' =? 0), (tl' =? 0), d; reflexivity.
Qed.

(** C7: while the overflow queue holds a packet, a fresh Add from the
    switch is appended to the queue and the turn of the loop ends: the
    channel machine and every other field of the link are untouched and no
    event is produced. *)
Theorem C7_fresh_add_joins_overflow (l : link) (pkt : htlcPacket)
    (m : UpdateAddHTLC) :
  htlc pkt = MsgUpdateAddHTLC m ->
  overflowQueue l <> [] ->
  htlcManagerStep (Downstream pkt) l =
  (Continue,
   {| batchCounter := batchCounter l; bestHeight := bestHeight l;
      channel := channel l; cfg := cfg l; registry := registry l;
      overflowQueue := overflowQueue l ++ [pkt];
      logCommitTick := logCommitTick l |},
   []).
Proof.
  intros Hadd Hq.
  unfold htlcManagerStep, bind, gets. rewrite Hadd.
  assert (Hlen : (queueLength (overflowQueue l) =? 0) = false).
  { unfold queueLength. destruct (overflowQueue l); [congruence|].
    apply Z.eqb_neq. simpl length. lia. }
  rewrite Hlen. reflexivity.
Qed.

(** *** Traces of sequenced steps *)

Lemma bind_emit {A} (e : Event) (k : unit -> M link A) (l : link) :
  bind (emit e) k l =
  (fst (fst (k tt l)), snd (fst (k tt l)), e :: snd (k tt l)).
Proof.
  unfold bind, emit. destruct (k tt l) as [[b l2] e2]. reflexivity.
Qed.

Lemma bind_gets {A B} (f : link -> A) (k : A -> M link B) (l : link) :
  bind (gets f) k l = k (f l) l.
Proof.
  unfold bind, gets. destruct (k (f l) l) as [[b l2] e2]. reflexivity.
Qed.


(** The fee check of a forwarding hop, as the code computes it: once the
    expiry and minimum-amount checks have passed, the expected fee is
    [BaseFee + AmountToForward * FeeRate / 1000000], on the amount to
    forward; while that computation stays within [uint64] and the fee
    does not exceed the amount of the HTLC, the HTLC takes the fee
    rejection exactly when its amount minus the fee is below the amount to
    forward.  The rejection carries [FeeInsufficient] with the amount of
    the HTLC and the last channel update, or a temporary channel failure
    when the update cannot be had. *)
Lemma forward_hop_fee_check (pd : PaymentDescriptor)
    (fwdInfo : ForwardingInfo) (chanIterator : HopIterator)
    (obfuscator : ErrorEncrypter) (heightNow : Z) (vars : loopVars)
    (l : link) :
  let p := FwrdingPolicy (cfg l) in
  let fee := BaseFee p + AmountToForward fwdInfo * FeeRate p / 1000000 in
  (wrap32 (Timeout pd - TimeLockDelta p) <=? heightNow) = false ->
  (pdAmount pd <? MinHTLC p) = false ->
  0 <= BaseFee p -> 0 <= FeeRate p -> 0 <= AmountToForward fwdInfo ->
  AmountToForward fwdInfo * FeeRate p < 2 ^ 64 ->
  fee <= pdAmount pd < 2 ^ 64 ->
  ExpectedFee p (AmountToForward fwdInfo) = fee /\
  (pdAmount pd - fee < AmountToForward fwdInfo <->
   processForwardHop pd fwdInfo chanIterator obfuscator heightNow vars l =
   (let* _ := emit (EvLogError "Incoming htlc(%x) has insufficient fee") in
    rejectHTLC pd
      match GetLastChannelUpdate with
      | Err _ => FailTemporaryChannelFailure None
      | Ok update => FailFeeInsufficient (pdAmount pd) update
      end obfuscator vars) l).
Proof.
  intros p fee Hexpiry Hmin Hbase Hrate Hfwd Hmul Hfee.
  assert (Hexact : ExpectedFee p (AmountToForward fwdInfo) = fee).
  { apply ExpectedFee_exact; try assumption. unfold fee, p in *. lia. }
  split; [exact Hexact|].
  assert (Hsub : wrap64 (pdAmount pd - fee) = pdAmount pd - fee).
  { apply wrap64_small. unfold isUint64.
    assert (0 <= AmountToForward fwdInfo * FeeRate p / 1000000)
      by (apply Z.div_pos; nia).
    unfold fee in *. lia. }
  unfold processForwardHop. rewrite bind_gets. fold p.
  rewrite Hexpiry, Hmin, Hexact, Hsub.
  destruct (Z.ltb_spec (pdAmount pd - fee) (AmountToForward fwdInfo))
    as [Hlt|Hge].
  - split; [reflexivity|intros _; exact Hlt].
  - split; [lia|]. intros Heq. exfalso.
    rewrite (bind_emit (EvLogError "Incoming htlc(%x) has insufficient fee"))
      in Heq.
    destruct (wrap32 (Timeout pd - TimeLockDelta p) <? OutgoingCTLV fwdInfo).
    + rewrite bind_emit in Heq. inversion Heq.
    + destruct (EncodeNextHop chanIterator).
      * rewrite bind_gets in Heq. inversion Heq.
      * rewrite bind_emit in Heq. inversion Heq.
Qed.


(** *** The scan after a resynchronisation *)



Lemma settleCandidate_spec (S : gset Z) (h : HTLC) :
  settleCandidate S h = true <->
  Incoming h = true /\ (HtlcIndex h ∉ S) /\
  exists p, LookupPreimage (RHash h) = Some p.
Proof.
  unfold settleCandidate.
  destruct (Incoming h); simpl; [|split; [discriminate|intros [? _]; discriminate]].
  destruct (bool_decide_reflect (HtlcIndex h ∈ S)) as [Hin|Hout]; simpl.
  - split; [discriminate|]. intros [_ [Hn _]]. contradiction.
  - destruct (LookupPreimage (RHash h)) as [p|].
    + split; [eauto|reflexivity].
    + split; [discriminate|]. intros [_ [_ [p Hp]]]. discriminate.
Qed.

Lemma scan_skip (S : gset Z) (h : HTLC) (rest : list HTLC) (l : link) :
  settleCandidate S h = false ->
  settleActiveHtlcs S (h :: rest) l = settleActiveHtlcs S rest l.
Proof.
  unfold settleCandidate. simpl.
  destruct (Incoming h); simpl; [|reflexivity].
  destruct (bool_decide (HtlcIndex h ∈ S)); simpl; [reflexivity|].
  destruct (LookupPreimage (RHash h)); [discriminate|reflexivity].
Qed.









(** The errors of the channel machine on which the handlers do call
    [fail]: on receiving an Add, a settle, a fail, a malformed fail, a
    commitment, a revocation or a fee update from the peer, on settling
    for a packet of the switch, and on signing (other than [ErrNoWindow])
    at a tick of the log-commit or batch timer.  The reason is logged, the
    peer is told to disconnect with it, and the turn of the loop ends.
    The loop itself is left at once on the two timer paths only; after a
    failed handler it goes on selecting. *)
Lemma channel_errors_that_fail (l : link) :
  (forall m q e c,
     ReceiveHTLC m (channel l) = (Err e, c) ->
     failsWith (htlcManagerStep (Upstream (MsgUpdateAddHTLC m) q) l)
       Continue) /\
  (forall m q e c,
     ReceiveHTLCSettle (fufillPaymentPreimage m) (fufillID m) (channel l) =
       (Some e, c) ->
     failsWith (htlcManagerStep (Upstream (MsgUpdateFufillHTLC m) q) l)
       Continue) /\
  (forall m q e c,
     ReceiveFailHTLC (failID m) (failReason m) (channel l) = (Some e, c) ->
     failsWith (htlcManagerStep (Upstream (MsgUpdateFailHTLC m) q) l)
       Continue) /\
  (forall m q b e c,
     EncodeFailure
       (match malformedFailureCode m with
        | CodeInvalidOnionVersion =>
            FailInvalidOnionVersion (malformedShaOnionBlob m)
        | CodeInvalidOnionHmac =>
            FailInvalidOnionHmac (malformedShaOnionBlob m)
        | CodeInvalidOnionKey =>
            FailInvalidOnionKey (malformedShaOnionBlob m)
        | _ => FailTemporaryChannelFailure None
        end) = Ok b ->
     ReceiveFailHTLC (malformedID m) b (channel l) = (Some e, c) ->
     failsWith (htlcManagerStep (Upstream (MsgUpdateFailMalformedHTLC m) q) l)
       Continue) /\
  (forall m q e c,
     ReceiveNewCommitment (commitCommitSig m) (commitHtlcSigs m) (channel l) =
       (Some e, c) ->
     failsWith (htlcManagerStep (Upstream (MsgCommitSig m) q) l) Continue) /\
  (forall m q e c,
     ReceiveRevocation m (channel l) = (Err e, c) ->
     failsWith (htlcManagerStep (Upstream (MsgRevokeAndAck m) q) l)
       Continue) /\
  (forall m q e c,
     ReceiveUpdateFee (feeFeePerKw m) (channel l) = (Some e, c) ->
     failsWith (htlcManagerStep (Upstream (MsgUpdateFee m) q) l) Continue) /\
  (forall pkt m e c,
     htlc pkt = MsgUpdateFufillHTLC m ->
     SettleHTLC (fufillPaymentPreimage m) (incomingHTLCID pkt) (channel l) =
       (Some e, c) ->
     failsWith (htlcManagerStep (Downstream pkt) l) Continue) /\
  (forall e c,
     logCommitTick l = true -> FullySynced (channel l) = false ->
     SignNextCommitment (channel l) = (Err e, c) -> e <> ErrNoWindow ->
     failsWith (htlcManagerStep LogCommitTick l) BreakOut) /\
  (forall e c,
     batchCounter l <> 0 ->
     SignNextCommitment (channel l) = (Err e, c) -> e <> ErrNoWindow ->
     failsWith (htlcManagerStep BatchTick l) BreakOut).
Proof.
  unfold failsWith, endsInFail.
  repeat apply conj.
  - intros m q e c H.
    unfold htlcManagerStep, handleUpstreamMsg, bind, callChannel.
    rewrite H. simpl. split; [reflexivity|]. eexists _, [_]. reflexivity.
  - intros m q e c H.
    unfold htlcManagerStep, handleUpstreamMsg, bind, callChannel.
    rewrite H. simpl. split; [reflexivity|]. eexists _, [_]. reflexivity.
  - intros m q e c H.
    unfold htlcManagerStep, handleUpstreamMsg, bind, callChannel.
    rewrite H. simpl. split; [reflexivity|]. eexists _, [_]. reflexivity.
  - intros m q b e c Hencode H.
    unfold htlcManagerStep, handleUpstreamMsg.
    destruct (malformedFailureCode m); cbn [fst snd] in *;
      rewrite Hencode; unfold bind, callChannel, emit, ret; rewrite H; simpl;
      (split; [reflexivity|]);
      first [eexists _, [_]; reflexivity | eexists _, [_; _]; reflexivity].
  - intros m q e c H.
    unfold htlcManagerStep, handleUpstreamMsg, bind, callChannel.
    rewrite H. simpl. split; [destruct e; reflexivity|].
    destruct e; simpl; try (eexists _, [_]; reflexivity).
    eexists _, [_; _]. reflexivity.
  - intros m q e c H.
    unfold htlcManagerStep, handleUpstreamMsg, bind, callChannel.
    rewrite H. simpl. split; [reflexivity|]. eexists _, [_]. reflexivity.
  - intros m q e c H.
    unfold htlcManagerStep, handleUpstreamMsg, bind, callChannel.
    rewrite H. simpl. split; [reflexivity|]. eexists _, [_]. reflexivity.
  - intros pkt m e c Hpkt H.
    unfold htlcManagerStep. rewrite bind_gets, Hpkt.
    unfold handleDownStreamPkt, handleDownStreamSwitch. rewrite Hpkt.
    unfold bind, callChannel. rewrite H. simpl.
    split; [reflexivity|]. eexists _, [_]. reflexivity.
  - intros e c Harmed Hsync Hsign Hne.
    unfold htlcManagerStep. rewrite bind_gets, Harmed. cbn [negb].
    rewrite bind_gets, Hsync.
    unfold updateCommitTx, bind, callChannel. rewrite Hsign.
    destruct e; try contradiction; simpl;
      (split; [reflexivity|]; eexists _, [_]; reflexivity).
  - intros e c Hbatch Hsign Hne.
    unfold htlcManagerStep. rewrite bind_gets.
    apply Z.eqb_neq in Hbatch. rewrite Hbatch.
    unfold updateCommitTx, bind, callChannel. rewrite Hsign.
    destruct e; try contradiction; simpl;
      (split; [reflexivity|]; eexists _, [_]; reflexivity).
Qed.

End LinkProperties.

(** ** The link on the scenarios *)

Import Scenario.

(** For a timeout below the grace delta, the subtraction of the grace check
    wraps around and the check lets the HTLC through at every height a chain
    can have. *)
Lemma grace_check_wraps (timeout heightNow : Z) :
  0 <= timeout < expiryGraceDelta ->
  0 <= heightNow < 2 ^ 32 - 2 ->
  timeout - expiryGraceDelta <= heightNow /\
  (wrap32 (timeout - expiryGraceDelta) <=? heightNow) = false.
Proof.
  unfold expiryGraceDelta, wrap32. intros Ht Hh. split; [lia|].
  apply Z.leb_gt.
  assert (Hw : (timeout - 2) mod 2 ^ 32 = timeout - 2 + 2 ^ 32).
  { symmetry. apply (Z.mod_unique _ _ (-1)); lia. }
  rewrite Hw. lia.
Qed.

(** C1, the code at the fee check.  The comment above the call says the
    fee is calculated using the amount of the incoming HTLC; the call
    passes the amount to forward, and the subtraction that follows is
    unsigned.  With base fee 1000 and rate 1: an HTLC of 1000999 msat that
    asks to forward 999999 msat is short of the fee on its own amount
    (1001) and is forwarded all the same, the fee being taken on 999999
    (1000); and an HTLC of 1000 msat that asks to forward 1000000 msat
    leaves nothing after either fee, yet [pd.Amount-expectedFee] wraps to
    2^64-1 and a packet of 1000000 msat goes to the switch. *)
Theorem C1_fee_on_amount_to_forward :
  let underpaid :=
    {| NextHop := 43; AmountToForward := 1000000; OutgoingCTLV := 500056 |} in
  (ExpectedFee scenarioPolicy 1000999 = 1001 /\
   1000999 - 1001 < AmountToForward forwardInfo /\
   ExpectedFee scenarioPolicy (AmountToForward forwardInfo) = 1000 /\
   exists pkt,
     processDescriptor (LS := forwardServices forwardInfo)
       (lockedInAdd 1000999 500200) (false, []) plainLink =
     (Some (false, [pkt]), plainLink, []) /\
     amount pkt = 999999) /\
  (ExpectedFee scenarioPolicy 1000 = 1000 /\
   ExpectedFee scenarioPolicy (AmountToForward underpaid) = 1001 /\
   1000 - 1000 < AmountToForward underpaid /\
   1000 - 1001 < AmountToForward underpaid /\
   wrap64 (1000 - 1001) = 2 ^ 64 - 1 /\
   exists pkt,
     processDescriptor (LS := forwardServices underpaid)
       (lockedInAdd 1000 500200) (false, []) plainLink =
     (Some (false, [pkt]), plainLink, []) /\
     amount pkt = 1000000).
Proof.
  cbv zeta. split.
  - split; [vm_compute; reflexivity|]. split; [vm_compute; reflexivity|].
    split; [vm_compute; reflexivity|].
    eexists. split; [vm_compute; reflexivity|reflexivity].
  - split; [vm_compute; reflexivity|]. split; [vm_compute; reflexivity|].
    split; [vm_compute; reflexivity|]. split; [vm_compute; reflexivity|].
    split; [vm_compute; reflexivity|].
    eexists. split; [vm_compute; reflexivity|reflexivity].
Qed.

(** The fee-insufficient scenario of the specification: 999500 msat come
    in, 999000 msat are to be forwarded, the fee is 1000 msat. *)
Lemma forward_hop_fee_check_witness :
  ExpectedFee scenarioPolicy 999000 = 1000 /\
  (999500 - 1000 < 999000 <->
   processForwardHop (LS := forwardServices forwardInfo)
     (lockedInAdd 999500 500200)
     {| NextHop := 43; AmountToForward := 999000; OutgoingCTLV := 500056 |}
     (toyIterator forwardInfo) toyEncrypter 500000 (false, []) plainLink =
   (let* _ := emit (EvLogError "Incoming htlc(%x) has insufficient fee") in
    rejectHTLC (lockedInAdd 999500 500200) (FailFeeInsufficient 999500 [])
      toyEncrypter (false, [])) plainLink).
Proof.
  apply (forward_hop_fee_check (LS := forwardServices forwardInfo)
           (lockedInAdd 999500 500200)
           {| NextHop := 43; AmountToForward := 999000;
              OutgoingCTLV := 500056 |}
           (toyIterator forwardInfo) toyEncrypter 500000 (false, [])
           plainLink);
    repeat split; vm_compute; try reflexivity; discriminate.
Defined.

(** C3, the claim as stated fails: a new [MinHTLC] that is not zero does
    not replace the old one. *)
Lemma C3_min_htlc_counterexample :
  let req :=
    {| policy := {| MinHTLC := 2000; BaseFee := 0; FeeRate := 0;
                    TimeLockDelta := 0 |};
       done := true |} in
  let run := htlcManagerStep (LS := forwardServices forwardInfo)
               (LinkControl (CmdPolicyUpdate req)) plainLink in
  MinHTLC (policy req) <> 0 /\
  MinHTLC (FwrdingPolicy (cfg (snd (fst run)))) = 1000 /\
  MinHTLC (FwrdingPolicy (cfg (snd (fst run)))) <> MinHTLC (policy req).
Proof.
  repeat split; vm_compute; discriminate.
Qed.

(** C4, the claim as stated fails: with the revocation window exhausted
    [updateCommitTx] returns success and [batchCounter] is still 3. *)
Lemma C4_no_window_counterexample :
  let run := updateCommitTx
    (scenarioLink closedWindowChannel (scenarioCfg false false) ∅ [] 3) in
  fst (fst run) = None /\ batchCounter (snd (fst run)) = 3 /\
  snd run = [EvSignNextCommitment].
Proof.
  repeat split.
Qed.

(** C5, the code on the two paths the claim names.  When the channel
    machine refuses to revoke after a commitment was accepted, and when it
    refuses the fail of a packet of the switch, the handler logs the error
    and returns: nobody is told to disconnect and the loop goes on.  The
    paths next to them do call [fail]: the same machine refusing the
    commitment itself, or the settle of a packet of the switch, has the
    peer disconnected. *)
Theorem C5_channel_errors_only_logged :
  let l := scenarioLink revokeFailsChannel (scenarioCfg false false) ∅ [] 0 in
  let run := htlcManagerStep (LS := forwardServices forwardInfo)
               (Upstream (MsgCommitSig someCommitSig) false) l in
  let l2 := scenarioLink brokenChannel (scenarioCfg false false) ∅ [] 0 in
  let run2 := htlcManagerStep (LS := forwardServices forwardInfo)
                (Downstream downstreamFail) l2 in
  (fst (RevokeCurrentCommitment (channel l)) = Err internalError /\
   fst (fst run) = Continue /\
   snd run = [EvReceiveNewCommitment [] []; EvRevokeCurrentCommitment;
              EvLogError "unable to revoke commitment: %v"] /\
   ~ disconnects (snd run)) /\
  (fst (FailHTLC 1 [] (channel l2)) = Some internalError /\
   fst (fst run2) = Continue /\
   snd run2 = [EvFailHTLC 1 []; EvLogError "unable to cancel HTLC: %v"] /\
   ~ disconnects (snd run2)) /\
  (fst (ReceiveNewCommitment [] [] (channel l2)) = Some internalError /\
   htlcManagerStep (LS := forwardServices forwardInfo)
     (Upstream (MsgCommitSig someCommitSig) false) l2 =
   (Continue, l2,
    [EvReceiveNewCommitment [] [];
     EvLogError "ChannelPoint(%v): unable to accept new commitment: %v";
     EvDisconnect "ChannelPoint(%v): unable to accept new commitment: %v"])) /\
  (fst (SettleHTLC 77 1 (channel l2)) = Some internalError /\
   htlcManagerStep (LS := forwardServices forwardInfo)
     (Downstream downstreamSettle) l2 =
   (Continue, l2,
    [EvSettleHTLC 77 1;
     EvLogError "unable to settle incoming HTLC: %v";
     EvDisconnect "unable to settle incoming HTLC: %v"])).
Proof.
  cbv zeta. split; [|split; [|split]].
  - repeat split.
    intros [reason [H|[H|[H|[]]]]]; discriminate.
  - repeat split.
    intros [reason [H|[H|[]]]]; discriminate.
  - split; vm_compute; reflexivity.
  - split; vm_compute; reflexivity.
Qed.

(** A channel machine that refuses the commitment of the peer. *)
Lemma channel_errors_that_fail_witness :
  failsWith
    (htlcManagerStep (LS := forwardServices forwardInfo)
       (Upstream (MsgCommitSig someCommitSig) false)
       (scenarioLink brokenChannel (scenarioCfg false false) ∅ [] 0))
    Continue.
Proof.
  apply (proj1 (proj2 (proj2 (proj2 (proj2
           (channel_errors_that_fail (LS := forwardServices forwardInfo)
              (scenarioLink brokenChannel (scenarioCfg false false) ∅ [] 0))))))
           someCommitSig false internalError brokenChannel).
  reflexivity.
Defined.



(** A second Add arrives while one is waiting in the overflow queue. *)
Lemma C7_fresh_add_joins_overflow_witness :
  htlcManagerStep (LS := forwardServices forwardInfo)
    (Downstream (downstreamAdd 2000)) starvedLink =
  (Continue,
   scenarioLink (channel starvedLink) (scenarioCfg false false) ∅
     [downstreamAdd 1500; downstreamAdd 2000] 0,
   []).
Proof.
  apply (C7_fresh_add_joins_overflow (LS := forwardServices forwardInfo)
           starvedLink (downstreamAdd 2000)
           {| addChanID := 0; addID := 0; addAmount := 2000;
              addPaymentHash := 99; addExpiry := 500100;
              addOnionBlob := [] |}).
  - reflexivity.
  - discriminate.
Defined.



(** C9, the code at timeouts below the grace delta: with timeout 1 at
    height 500000 the timeout minus the grace delta is far below the
    height, yet the grace check does not reject.  In debug mode the HTLC
    is settled; outside debug mode, with no invoice for its hash, it is
    failed with [UnknownPaymentHash]. *)
Theorem C9_timeout_below_grace_delta :
  1 - expiryGraceDelta <= 500000 /\
  snd (processDescriptor (LS := exitServices 1) (lockedInAdd 123456 1)
         (false, [])
         (scenarioLink openChannel (scenarioCfg true false)
            zeroValueRegistry [] 0)) =
  [EvSettleHTLC 77 3; EvSettleInvoice 99;
   EvSendMessage (MsgUpdateFufillHTLC
     {| fufillChanID := 7; fufillID := 3; fufillPaymentPreimage := 77 |})] /\
  snd (processDescriptor (LS := exitServices 1) (lockedInAdd 123456 1)
         (false, []) plainLink) =
  [EvLogError "unable to query invoice registry";
   EvEncryptFirstHop FailUnknownPaymentHash;
   EvFailHTLC 3 [];
   EvSendMessage (MsgUpdateFailHTLC
     {| failChanID := 7; failID := 3; failReason := [] |})].
Proof.
  split; [unfold expiryGraceDelta; lia|].
  split; vm_compute; reflexivity.
Qed.

(** A balance of 1000 msat with 1500 msat waiting in the overflow queue. *)
Lemma C10_bandwidth_wraps_witness :
  Bandwidth starvedLink = 2 ^ 64 - (1500 - 1000).
Proof.
  destruct (C10_bandwidth_wraps starvedLink) as [_ [_ H]].
  - unfold isUint64. simpl. lia.
  - destruct H as [H _]; [vm_compute; reflexivity|]. exact H.
Defined.

(** * Further behaviour of the link *)

Section LinkBehaviour.

Context {Chan Reg : Type}.
Context `{LC : LightningChannel Chan} `{ID : InvoiceDatabase Reg}.
Context `{LS : LinkServices}.

Abbreviation link := (channelLink Chan Reg).

(** *** Steps of the monad *)

Lemma run_bind {A B} (c : M link A) (k : A -> M link B) (l l1 : link)
    (a : A) (e1 : list Event) :
  c l = (a, l1, e1) ->
  bind c k l =
  (fst (fst (k a l1)), snd (fst (k a l1)), e1 ++ snd (k a l1)).
Proof.
  intros Hc. unfold bind. rewrite Hc.
  destruct (k a l1) as [[b l2] e2]. reflexivity.
Qed.

Lemma run_gets {A B} (f : link -> A) (k : A -> M link B) (l : link) :
  bind (gets f) k l = k (f l) l.
Proof.
  unfold bind, gets. destruct (k (f l) l) as [[b l2] e2]. reflexivity.
Qed.

Lemma run_emit {A} (e : Event) (k : unit -> M link A) (l : link) :
  bind (emit e) k l =
  (fst (fst (k tt l)), snd (fst (k tt l)), e :: snd (k tt l)).
Proof.
  unfold bind, emit. destruct (k tt l) as [[b l2] e2]. reflexivity.
Qed.

(** *** The event loop as a whole *)

Lemma downstream_add_enqueued (l : link) (pkt : htlcPacket) :
  isAddPacket pkt -> overflowQueue l <> [] ->
  htlcManagerStep (Downstream pkt) l =
  (Continue, withOverflowQueue l (overflowQueue l ++ [pkt]), []).
Proof.
  intros [m Hadd] Hq.
  unfold htlcManagerStep. rewrite run_gets, Hadd.
  assert (Hlen : (queueLength (overflowQueue l) =? 0) = false).
  { unfold queueLength. destruct (overflowQueue l); [congruence|].
    apply Z.eqb_neq. simpl length. lia. }
  rewrite Hlen. reflexivity.
Qed.

(** X3: while the overflow queue holds a packet, a whole run of fresh Adds
    from the switch joins the queue behind it in the order of arrival; the
    channel machine sees none of them and nothing is sent. *)
Theorem overflow_keeps_arrival_order (pkts : list htlcPacket) :
  forall l : link,
  Forall isAddPacket pkts -> overflowQueue l <> [] ->
  htlcManagerLoop (map Downstream pkts) l =
  (Continue, withOverflowQueue l (overflowQueue l ++ pkts), []).
Proof.
  induction pkts as [|pkt pkts IH]; intros l Hadds Hq.
  - simpl. unfold ret, withOverflowQueue. rewrite app_nil_r.
    destruct l; reflexivity.
  - inversion Hadds as [|? ? Hadd Hrest]; subst.
    cbn [map htlcManagerLoop]. unfold bind.
    rewrite (downstream_add_enqueued l pkt Hadd Hq).
    rewrite IH; [|exact Hrest|simpl; destruct (overflowQueue l); discriminate].
    unfold withOverflowQueue. simpl. rewrite <- app_assoc. reflexivity.
Qed.

(** X4: a packet of the overflow queue that the channel machine refuses
    again with [ErrMaxHTLCNumber] goes back to the queue at its tail,
    behind the packets that arrived after it; [batchCounter] is untouched
    and nothing is sent. *)
Theorem overflow_retry_requeues_at_tail (l : link) (pkt : htlcPacket)
    (rest : list htlcPacket) (m : UpdateAddHTLC) (c : Chan) :
  overflowQueue l = pkt :: rest ->
  htlc pkt = MsgUpdateAddHTLC m ->
  AddHTLC (stampAdd (ChanID l) m) (channel l) = (Err ErrMaxHTLCNumber, c) ->
  htlcManagerStep OverflowOutgoing l =
  (Continue,
   withOverflowQueue (withChannel l c)
     (rest ++ [stampPacket (ChanID l) pkt m]),
   [EvAddHTLC (stampAdd (ChanID l) m)]).
Proof.
  intros Hq Hadd Hfull.
  unfold htlcManagerStep. rewrite run_gets, Hq.
  unfold bind at 1. unfold setOverflowQueue at 1. rewrite Hadd.
  unfold handleDownStreamPkt, handleDownStreamSwitch. rewrite Hadd.
  unfold bind, gets, callChannel, ChanID, stampAdd in *. simpl.
  rewrite Hfull. reflexivity.
Qed.

(** *** Packets from the switch *)

Lemma downstream_after_switch (pkt : htlcPacket) (isReProcess isSettle : bool)
    (l l1 : link) (tr : list Event) :
  handleDownStreamSwitch pkt l = (Some isSettle, l1, tr) ->
  handleDownStreamPkt pkt isReProcess l =
  let '(u, l2, tr2) :=
    commitIfDue isSettle
      (withBatchCounter l1 (wrap32 (batchCounter l1 + 1))) in
  (u, l2, tr ++ tr2).
Proof.
  intros Hswitch. unfold handleDownStreamPkt, commitIfDue, bind.
  rewrite Hswitch. unfold gets, setBatchCounter, withBatchCounter. cbn.
  destruct ((wrap32 (batchCounter l1 + 1) >=? 10) || isSettle).
  - destruct (updateCommitTx _) as [[[e|] l2] tr2]; cbn;
      rewrite ?app_nil_r; reflexivity.
  - cbn. rewrite app_nil_r. reflexivity.
Qed.

(** X5: an Add of the switch that the channel machine accepts is
    registered as a circuit of the switch, under the index the machine
    gave it, before the wire Add goes to the peer; the counter of the batch
    grows by one, and a commitment is signed at once exactly when the
    counter has reached ten. *)
Theorem accepted_add_circuit_before_wire (l : link) (pkt : htlcPacket)
    (m : UpdateAddHTLC) (index : Z) (c : Chan) (isReProcess : bool) :
  htlc pkt = MsgUpdateAddHTLC m ->
  AddHTLC (stampAdd (ChanID l) m) (channel l) = (Ok index, c) ->
  handleDownStreamPkt pkt isReProcess l =
  let '(u, l2, tr2) :=
    commitIfDue false
      (withBatchCounter (withChannel l c) (wrap32 (batchCounter l + 1))) in
  (u, l2,
   [EvAddHTLC (stampAdd (ChanID l) m);
    EvSwitchAddCircuit
      {| PaymentHash := addPaymentHash m;
         IncomingChanID := incomingChanID pkt;
         IncomingHTLCID := incomingHTLCID pkt;
         OutgoingChanID := channel_ShortChanID c;
         OutgoingHTLCID := index;
         ErrorEncrypterOf := obfuscator pkt |};
    EvSendMessage (MsgUpdateAddHTLC
      {| addChanID := ChanID l; addID := index; addAmount := addAmount m;
         addPaymentHash := addPaymentHash m; addExpiry := addExpiry m;
         addOnionBlob := addOnionBlob m |})] ++ tr2).
Proof.
  intros Hadd Hok.
  apply (downstream_after_switch pkt isReProcess false l (withChannel l c)).
  unfold handleDownStreamSwitch. rewrite Hadd.
  unfold bind, gets, callChannel, ChanID, ShortChanID, stampAdd in *.
  simpl. rewrite Hok. reflexivity.
Qed.

(** X6: an Add of the switch that the channel machine refuses for another
    reason than [ErrMaxHTLCNumber] never reaches the peer and never makes
    the link disconnect; the counter and the overflow queue keep their
    values, and what goes to the switch is one Fail packet addressed to the
    incoming channel and HTLC, marked local exactly when the packet has no
    error encrypter. *)
Theorem refused_add_goes_back_to_switch (l : link) (pkt : htlcPacket)
    (m : UpdateAddHTLC) (e : error) (c : Chan) (isReProcess : bool) :
  htlc pkt = MsgUpdateAddHTLC m ->
  AddHTLC (stampAdd (ChanID l) m) (channel l) = (Err e, c) ->
  e <> ErrMaxHTLCNumber ->
  let '(_, l', tr) := handleDownStreamPkt pkt isReProcess l in
  l' = withChannel l c /\
  sendsNothing tr /\ ~ disconnects tr /\
  (forall pkts, In (EvSwitchForward pkts) tr ->
     exists reason,
       pkts = [refusedAddPacket pkt m reason
                 (match obfuscator pkt with None => true | Some _ => false end)]) /\
  (forall reason,
     match obfuscator pkt with
     | None => EncodeFailure (FailTemporaryChannelFailure None) = Ok reason
     | Some o =>
         EncryptFirstHop o (FailTemporaryChannelFailure None) = Ok reason
     end ->
     In (EvSwitchForward
           [refusedAddPacket pkt m reason
              (match obfuscator pkt with None => true | Some _ => false end)])
        tr).
Proof.
  intros Hadd Herr Hne.
  unfold handleDownStreamPkt, handleDownStreamSwitch. rewrite Hadd.
  unfold bind, gets, callChannel, ChanID, stampAdd, emit, ret in *.
  simpl. rewrite Herr.
  unfold sendsNothing, disconnects, refusedAddPacket.
  destruct e; try contradiction; simpl;
    (destruct (obfuscator pkt) as [o|]; simpl;
     [destruct (EncryptFirstHop o (FailTemporaryChannelFailure None))
        as [reason|e']
     |destruct (EncodeFailure (FailTemporaryChannelFailure None))
        as [reason|e']]; simpl;
     (split; [reflexivity|]);
     (split; [intros m' Hin; simpl in Hin;
              repeat (destruct Hin as [Hin|Hin]; try discriminate); exact Hin|]);
     (split; [intros [r Hin]; simpl in Hin;
              repeat (destruct Hin as [Hin|Hin]; try discriminate); exact Hin|]);
     (split;
      [intros pkts Hin; simpl in Hin;
       repeat (destruct Hin as [Hin|Hin]; try discriminate);
       try contradiction; inversion Hin; eexists; reflexivity
      |intros r Hr; inversion Hr; subst; simpl; auto])).
Qed.

(** X7: a settle of the switch that the channel machine accepts goes to
    the peer with the channel id of the link and the id of the incoming
    HTLC, and a commitment is signed at once, whatever the counter. *)
Theorem settle_packet_commits_at_once (l : link) (pkt : htlcPacket)
    (m : UpdateFufillHTLC) (c : Chan) (isReProcess : bool) :
  htlc pkt = MsgUpdateFufillHTLC m ->
  SettleHTLC (fufillPaymentPreimage m) (incomingHTLCID pkt) (channel l) =
    (None, c) ->
  handleDownStreamPkt pkt isReProcess l =
  let '(err, l2, tr2) :=
    updateCommitTx
      (withBatchCounter (withChannel l c) (wrap32 (batchCounter l + 1))) in
  (tt, l2,
   [EvSettleHTLC (fufillPaymentPreimage m) (incomingHTLCID pkt);
    EvSendMessage (MsgUpdateFufillHTLC
      {| fufillChanID := channel_ChanID c;
         fufillID := incomingHTLCID pkt;
         fufillPaymentPreimage := fufillPaymentPreimage m |})] ++
   tr2 ++
   match err with
   | Some _ =>
       [EvLogError "unable to update commitment: %v";
        EvDisconnect "unable to update commitment: %v"]
   | None => []
   end).
Proof.
  intros Hset Hok.
  rewrite (downstream_after_switch pkt isReProcess true l (withChannel l c)
             [EvSettleHTLC (fufillPaymentPreimage m) (incomingHTLCID pkt);
              EvSendMessage (MsgUpdateFufillHTLC
                {| fufillChanID := channel_ChanID c;
                   fufillID := incomingHTLCID pkt;
                   fufillPaymentPreimage := fufillPaymentPreimage m |})]).
  - unfold commitIfDue. rewrite orb_true_r. simpl batchCounter.
    destruct (updateCommitTx _) as [[err l2] tr2]. reflexivity.
  - unfold handleDownStreamSwitch. rewrite Hset.
    unfold bind, gets, callChannel, ChanID. simpl. rewrite Hok. reflexivity.
Qed.

(** *** Commitments from the peer *)

(** X8: once a commitment of the peer is accepted, the revocation of the
    prior state is the first message to leave, right after the two calls
    of the channel machine.  When the shutdown signal wins the [select]
    around the publication, the handler returns there.  Otherwise the
    active HTLCs are published and the log-commit timer is armed again,
    and a commitment is signed in reply exactly when the machine is not
    fully synced. *)
Theorem accepted_commitment_is_revoked_first (l : link) (m : CommitSig)
    (c1 c2 : Chan) (nextRevocation : RevokeAndAck) (currentHtlcs : list HTLC)
    (quit : bool) :
  ReceiveNewCommitment (commitCommitSig m) (commitHtlcSigs m) (channel l) =
    (None, c1) ->
  RevokeCurrentCommitment c1 = (Ok (nextRevocation, currentHtlcs), c2) ->
  let l1 :=
    {| batchCounter := batchCounter l; bestHeight := bestHeight l;
       channel := c2; cfg := cfg l; registry := registry l;
       overflowQueue := overflowQueue l; logCommitTick := true |} in
  let revoked :=
    [EvReceiveNewCommitment (commitCommitSig m) (commitHtlcSigs m);
     EvRevokeCurrentCommitment;
     EvSendMessage (MsgRevokeAndAck nextRevocation)] in
  let published := [EvHtlcUpdates currentHtlcs; EvResetLogCommitTimer] in
  handleUpstreamMsg quit (MsgCommitSig m) l =
  if quit then (tt, withChannel l c2, revoked)
  else if FullySynced c2 then (tt, l1, revoked ++ published)
  else
    let '(err, l2, tr2) := updateCommitTx l1 in
    (tt, l2, revoked ++ published ++ tr2 ++ commitFailure err).
Proof.
  intros Hnew Hrevoke l1 revoked published. subst l1 revoked published.
  unfold handleUpstreamMsg, bind, callChannel, setChannel, SendMessage, emit,
    setLogCommitTick, gets, commitFailure, withChannel.
  rewrite Hnew. cbn. rewrite Hrevoke. cbn.
  destruct quit; [reflexivity|]. cbn.
  destruct (FullySynced c2); [reflexivity|].
  destruct (updateCommitTx _) as [[[e|] l2] tr2]; cbn;
    rewrite ?app_nil_r; reflexivity.
Qed.

(** X9: a commitment the channel machine rejects always ends in [fail];
    the peer gets a wire Error first, with the text of the error, exactly
    when the error is an [InvalidCommitSigError]. *)
Theorem rejected_commitment_fails (l : link) (m : CommitSig) (e : error)
    (c : Chan) (quit : bool) :
  ReceiveNewCommitment (commitCommitSig m) (commitHtlcSigs m) (channel l) =
    (Some e, c) ->
  handleUpstreamMsg quit (MsgCommitSig m) l =
  (tt, withChannel l c,
   EvReceiveNewCommitment (commitCommitSig m) (commitHtlcSigs m) ::
   match e with
   | InvalidCommitSigError =>
       [EvSendMessage (MsgError
          {| errorChanID := channel_ChanID c; errorData := errorText e |})]
   | _ => []
   end ++
   [EvLogError "ChannelPoint(%v): unable to accept new commitment: %v";
    EvDisconnect "ChannelPoint(%v): unable to accept new commitment: %v"]).
Proof.
  intros Hnew.
  unfold handleUpstreamMsg, bind, callChannel, setChannel, SendMessage, emit,
    gets, fail, ChanID, ret.
  rewrite Hnew. destruct e; reflexivity.
Qed.

(** *** Locked-in resolutions *)

Lemma resolutions_step (pd : PaymentDescriptor) (vars : loopVars) (l : link) :
  EntryType pd <> Add ->
  processDescriptor pd vars l =
  (Some (fst vars, snd vars ++ [resolutionPacket (ShortChanID l) pd]), l,
   [EvSignalFreeSlot]).
Proof.
  intros Hkind. unfold processDescriptor, resolutionPacket.
  destruct (EntryType pd); [contradiction|reflexivity|reflexivity].
Qed.

Lemma resolutions_loop (pds : list PaymentDescriptor) :
  forall (vars : loopVars) (l : link),
  Forall (fun pd => EntryType pd <> Add) pds ->
  processDescriptors pds vars l =
  (Some (fst vars, snd vars ++ map (resolutionPacket (ShortChanID l)) pds), l,
   repeat EvSignalFreeSlot (length pds)).
Proof.
  induction pds as [|pd pds IH]; intros vars l Hall.
  - simpl. unfold ret. rewrite app_nil_r. destruct vars; reflexivity.
  - inversion Hall as [|? ? Hkind Hrest]; subst.
    cbn [processDescriptors]. unfold bind.
    rewrite (resolutions_step pd vars l Hkind).
    rewrite (IH _ l Hrest). cbn. rewrite <- app_assoc. reflexivity.
Qed.

(** X10: locked-in settles and fails of forwarded HTLCs go to the switch
    as one packet each, in the order of the descriptors, addressed by the
    short channel id of the link and the parent index; the overflow queue
    is told of one free slot per descriptor, the link is unchanged, and no
    commitment is signed. *)
Theorem resolutions_are_forwarded_in_order (pds : list PaymentDescriptor)
    (l : link) :
  Forall (fun pd => EntryType pd <> Add) pds ->
  processLockedInHtlcs pds l =
  (map (resolutionPacket (ShortChanID l)) pds, l,
   repeat EvSignalFreeSlot (length pds)).
Proof.
  intros Hall. unfold processLockedInHtlcs, bind.
  rewrite (resolutions_loop pds (false, []) l Hall). cbn.
  rewrite app_nil_r. reflexivity.
Qed.

(** *** The onion blob *)

Lemma firstn_repeat_min {A : Type} (x : A) (n : nat) :
  forall k : nat, firstn k (repeat x n) = repeat x (Nat.min k n).
Proof.
  induction n as [|n IH]; intros k.
  - rewrite Nat.min_0_r. destruct k; reflexivity.
  - destruct k as [|k]; [reflexivity|]. cbn. rewrite IH. reflexivity.
Qed.

(** X11: the onion handed to the decoders always has the size of an onion
    packet, whatever the length of the blob of the descriptor: a longer
    blob is cut, a shorter one keeps its bytes and is filled with zeros up
    to that size. *)
Theorem onion_blob_has_packet_size (blob : OnionBlob) :
  length (copyOnionBlob blob) = OnionPacketSize /\
  firstn (Nat.min (length blob) OnionPacketSize) (copyOnionBlob blob) =
  firstn OnionPacketSize blob /\
  copyOnionBlob blob =
  firstn OnionPacketSize blob ++
  repeat Byte.x00 (OnionPacketSize - length blob).
Proof.
  unfold copyOnionBlob. split; [|split].
  - rewrite length_firstn, length_app, repeat_length. lia.
  - rewrite firstn_firstn.
    replace (Nat.min (Nat.min (length blob) OnionPacketSize) OnionPacketSize)
      with (Nat.min (length blob) OnionPacketSize) by lia.
    rewrite firstn_app.
    replace (Nat.min (length blob) OnionPacketSize - length blob)%nat
      with 0%nat by lia.
    simpl. rewrite app_nil_r.
    destruct (Nat.le_ge_cases (length blob) OnionPacketSize) as [Hle|Hge].
    + rewrite Nat.min_l by exact Hle.
      rewrite firstn_all. symmetry. apply firstn_all2. exact Hle.
    + rewrite Nat.min_r by exact Hge. reflexivity.
  - rewrite firstn_app, firstn_repeat_min. f_equal. f_equal. lia.
Qed.

(** *** Rejections *)

(** X12: when an HTLC is rejected, the wire Fail leaves only after the
    channel machine has accepted the fail with the same encrypted reason;
    when the encrypter gives no reason the channel machine is not called
    and the link is unchanged; nothing is ever settled on the way. *)
Theorem wire_fail_follows_local_fail (htlcIndex : Z)
    (failure : FailureMessage) (e : ErrorEncrypter) (l : link) :
  let '(_, l', tr) := sendHTLCError htlcIndex failure e l in
  (forall m, In (EvSendMessage m) tr ->
     exists reason c,
       EncryptFirstHop e failure = Ok reason /\
       FailHTLC htlcIndex reason (channel l) = (None, c) /\
       l' = withChannel l c /\
       m = MsgUpdateFailHTLC
             {| failChanID := channel_ChanID c; failID := htlcIndex;
                failReason := reason |}) /\
  ((forall reason, EncryptFirstHop e failure <> Ok reason) ->
   l' = l /\ forall i r, ~ In (EvFailHTLC i r) tr) /\
  neverSettles tr.
Proof.
  unfold sendHTLCError, bind, emit, callChannel, setChannel, gets,
    SendMessage, ChanID, neverSettles.
  destruct (EncryptFirstHop e failure) as [reason|err]; cbn.
  - destruct (FailHTLC htlcIndex reason (channel l)) as [[err|] c] eqn:Hfail;
      cbn.
    + split; [intros m [H|[H|[H|[]]]]; discriminate|].
      split; [intros Hno; exfalso; apply (Hno reason); reflexivity|].
      split; [intros p i [H|[H|[H|[]]]]|intros h [H|[H|[H|[]]]]];
        discriminate.
    + split.
      * intros m [H|[H|[H|[]]]]; try discriminate.
        inversion H; subst. exists reason, c. auto.
      * split; [intros Hno; exfalso; apply (Hno reason); reflexivity|].
        split; [intros p i [H|[H|[H|[]]]]|intros h [H|[H|[H|[]]]]];
          discriminate.
  - split; [intros m [H|[H|[]]]; discriminate|].
    split.
    + intros _. split; [destruct l; reflexivity|].
      intros i r [H|[H|[]]]; discriminate.
    + split; [intros p i [H|[H|[]]]|intros h [H|[H|[]]]]; discriminate.
Qed.

Lemma sendHTLCError_neverSettles (htlcIndex : Z) (failure : FailureMessage)
    (e : ErrorEncrypter) (l : link) :
  neverSettles (snd (sendHTLCError htlcIndex failure e l)).
Proof.
  unfold sendHTLCError, bind, emit, callChannel, setChannel, gets,
    SendMessage, ChanID, neverSettles.
  destruct (EncryptFirstHop e failure) as [reason|err]; cbn.
  - destruct (FailHTLC htlcIndex reason (channel l)) as [[err|] c]; cbn;
      (split; [intros p i [H|[H|[H|[]]]]|intros h [H|[H|[H|[]]]]];
       discriminate).
  - split; [intros p i [H|[H|[]]]|intros h [H|[H|[]]]]; discriminate.
Qed.

Lemma rejectHTLC_run (pd : PaymentDescriptor) (failure : FailureMessage)
    (obfuscator : ErrorEncrypter) (vars : loopVars) (l : link) :
  fst (fst (rejectHTLC pd failure obfuscator vars l)) =
    Some (true, snd vars) /\
  neverSettles (snd (rejectHTLC pd failure obfuscator vars l)).
Proof.
  pose proof (sendHTLCError_neverSettles (pdHtlcIndex pd) failure
                obfuscator l) as Hnever.
  unfold rejectHTLC, bind.
  destruct (sendHTLCError _ _ _ l) as [[u l1] e1]. cbn in *.
  rewrite app_nil_r. auto.
Qed.

Lemma logged_reject_run (format : string) (pd : PaymentDescriptor)
    (failure : FailureMessage) (obfuscator : ErrorEncrypter)
    (vars : loopVars) (l : link) :
  let run := (let* _ := emit (EvLogError format) in
              rejectHTLC pd failure obfuscator vars) l in
  fst (fst run) = Some (true, snd vars) /\ neverSettles (snd run).
Proof.
  cbv zeta. rewrite run_emit. cbn [fst snd].
  destruct (rejectHTLC_run pd failure obfuscator vars l) as [Hres [H1 H2]].
  split; [exact Hres|]. split.
  - intros p i [H|H]; [discriminate|]. exact (H1 p i H).
  - intros h [H|H]; [discriminate|]. exact (H2 h H).
Qed.

(** *** The final hop *)

(** X13: the final hop settles an HTLC on the channel machine only with
    the preimage of an open invoice for its payment hash, outside hodl
    mode and after the grace check on the timeout; outside debug mode
    also only when an invoice with a value is covered by the amount of the
    HTLC and equalled by the amount of the onion, and the time-lock of the
    onion is the timeout of the HTLC and not below the height plus the
    time-lock delta. *)
Theorem final_hop_settles_only_checked (pd : PaymentDescriptor)
    (fwdInfo : ForwardingInfo) (obfuscator : ErrorEncrypter) (heightNow : Z)
    (vars : loopVars) (l : link) (p : Hash32) (i : Z) :
  In (EvSettleHTLC p i)
     (snd (processExitHop pd fwdInfo obfuscator heightNow vars l)) ->
  (DebugHTLC (cfg l) && HodlHTLC (cfg l)) = false /\
  heightNow < wrap32 (Timeout pd - expiryGraceDelta) /\
  exists invoice,
    LookupInvoice (pdRHash pd) (registry l) = Ok invoice /\
    Settled invoice = false /\
    p = PaymentPreimage invoice /\ i = pdHtlcIndex pd /\
    (DebugHTLC (cfg l) = false ->
     (0 < Value invoice ->
      Value invoice <= pdAmount pd /\
      AmountToForward fwdInfo = Value invoice) /\
     wrap32 (heightNow + TimeLockDelta (FwrdingPolicy (cfg l))) <=
       OutgoingCTLV fwdInfo /\
     Timeout pd = OutgoingCTLV fwdInfo).
Proof.
  unfold processExitHop. rewrite run_gets.
  destruct (DebugHTLC (cfg l) && HodlHTLC (cfg l)) eqn:Hhodl;
    [intros []|].
  destruct (wrap32 (Timeout pd - expiryGraceDelta) <=? heightNow) eqn:Hgrace.
  { intros Hin. exfalso.
    exact (proj1 (proj2 (logged_reject_run _ _ _ _ _ _)) _ _ Hin). }
  rewrite run_gets.
  destruct (LookupInvoice (pdRHash pd) (registry l)) as [invoice|err]
    eqn:Hlookup.
  2:{ intros Hin. exfalso.
      exact (proj1 (proj2 (logged_reject_run _ _ _ _ _ _)) _ _ Hin). }
  destruct (Settled invoice) eqn:Hsettled.
  { intros Hin. exfalso.
    exact (proj1 (proj2 (rejectHTLC_run _ _ _ _ _)) _ _ Hin). }
  destruct (negb (DebugHTLC (cfg l)) && (Value invoice >? 0) &&
            (pdAmount pd <? Value invoice)) eqn:Hamount.
  { intros Hin. exfalso.
    exact (proj1 (proj2 (logged_reject_run _ _ _ _ _ _)) _ _ Hin). }
  destruct (negb (DebugHTLC (cfg l)) && (Value invoice >? 0) &&
            negb (AmountToForward fwdInfo =? Value invoice)) eqn:Honion.
  { intros Hin. exfalso.
    exact (proj1 (proj2 (logged_reject_run _ _ _ _ _ _)) _ _ Hin). }
  destruct (negb (DebugHTLC (cfg l)) &&
            (OutgoingCTLV fwdInfo <?
             wrap32 (heightNow + TimeLockDelta (FwrdingPolicy (cfg l)))))
    eqn:Hlock.
  { intros Hin. exfalso.
    exact (proj1 (proj2 (logged_reject_run _ _ _ _ _ _)) _ _ Hin). }
  destruct (negb (DebugHTLC (cfg l)) &&
            negb (Timeout pd =? OutgoingCTLV fwdInfo)) eqn:Htimeout.
  { intros Hin. exfalso.
    exact (proj1 (proj2 (logged_reject_run _ _ _ _ _ _)) _ _ Hin). }
  intros Hin.
  assert (Hsame : p = PaymentPreimage invoice /\ i = pdHtlcIndex pd).
  { revert Hin.
    unfold bind, callChannel, callRegistry, setChannel, setRegistry, gets,
      SendMessage, emit, fail, ret.
    destruct (SettleHTLC _ _ (channel l)) as [[e|] c]; cbn.
    - intros [H|[H|[H|[]]]]; try discriminate. inversion H. auto.
    - destruct (SettleInvoice _ (registry l)) as [[e|] r]; cbn.
      + intros [H|[H|[H|[H|[]]]]]; try discriminate. inversion H. auto.
      + intros [H|[H|[H|[]]]]; try discriminate. inversion H. auto. }
  destruct Hsame as [Hp Hi].
  split; [reflexivity|]. split; [apply Z.leb_gt; exact Hgrace|].
  exists invoice. repeat split; try assumption.
  - rewrite H in Hamount. cbn in Hamount.
    destruct (Z.gtb_spec (Value invoice) 0); [|lia].
    cbn in Hamount. apply Z.ltb_ge in Hamount. exact Hamount.
  - rewrite H in Honion. cbn in Honion.
    destruct (Z.gtb_spec (Value invoice) 0); [|lia].
    cbn in Honion. apply negb_false_iff, Z.eqb_eq in Honion. exact Honion.
  - rewrite H in Hlock. cbn in Hlock. apply Z.ltb_ge in Hlock. exact Hlock.
  - rewrite H in Htimeout. cbn in Htimeout.
    apply negb_false_iff, Z.eqb_eq in Htimeout. exact Htimeout.
Qed.

(** *** A hop that forwards *)

Lemma writeOnionBlob_length (chunks : list (list Byte.byte)) :
  forall room : nat, (length (writeOnionBlob room chunks) <= room)%nat.
Proof.
  induction chunks as [|chunk rest IH]; intros room; cbn [writeOnionBlob].
  - cbn. lia.
  - destruct (Nat.leb_spec (length chunk) room) as [Hfits|Hover].
    + rewrite length_app. specialize (IH (room - length chunk)%nat). lia.
    + cbn. lia.
Qed.

Lemma writeOnionBlob_fits (chunks : list (list Byte.byte)) :
  forall room : nat,
  (length (concat chunks) <= room)%nat ->
  writeOnionBlob room chunks = concat chunks.
Proof.
  induction chunks as [|chunk rest IH]; intros room Hfits; [reflexivity|].
  cbn [writeOnionBlob concat] in *. rewrite length_app in Hfits.
  destruct (Nat.leb_spec (length chunk) room) as [_|Hover]; [|lia].
  rewrite IH by lia. reflexivity.
Qed.

Lemma encodedOnionBlob_length (chunks : list (list Byte.byte)) :
  length (encodedOnionBlob chunks) = OnionPacketSize.
Proof.
  unfold encodedOnionBlob. cbv zeta.
  pose proof (writeOnionBlob_length chunks OnionPacketSize) as Hlen.
  rewrite length_app, repeat_length. lia.
Qed.

(** An encoder that writes exactly an onion packet, in whatever chunks,
    fills the array with what it wrote. *)
Lemma encodedOnionBlob_exact (chunks : list (list Byte.byte)) :
  length (concat chunks) = OnionPacketSize ->
  encodedOnionBlob chunks = concat chunks.
Proof.
  intros Hsize. unfold encodedOnionBlob. cbv zeta.
  rewrite writeOnionBlob_fits by lia.
  rewrite Hsize, Nat.sub_diag. cbn. apply app_nil_r.
Qed.

(** X14: an Add is handed on to the switch only when it passed the whole
    forwarding policy, in the arithmetic of the code: timeout minus the
    time-lock delta above the height and not below the time-lock of the
    onion, amount not below [MinHTLC], amount minus the expected fee not
    below the amount to forward.  The packet then carries the amount and
    the time-lock of the onion and the payment hash of the HTLC, under the
    short channel id of this link and the index of the HTLC; its onion is
    the array of the size of an onion packet that holds the chunks the
    encoder wrote for as long as they fit, zero elsewhere; the link is
    unchanged and nothing is sent or logged. *)
Theorem forwarded_add_passed_policy (pd : PaymentDescriptor)
    (fwdInfo : ForwardingInfo) (chanIterator : HopIterator)
    (obfuscator : ErrorEncrypter) (heightNow : Z) (vars : loopVars)
    (l l' : link) (needUpdate : bool) (pkts : list htlcPacket)
    (tr : list Event) :
  processForwardHop pd fwdInfo chanIterator obfuscator heightNow vars l =
    (Some (needUpdate, pkts), l', tr) ->
  pkts <> snd vars ->
  let p := FwrdingPolicy (cfg l) in
  heightNow < wrap32 (Timeout pd - TimeLockDelta p) /\
  MinHTLC p <= pdAmount pd /\
  AmountToForward fwdInfo <=
    wrap64 (pdAmount pd - ExpectedFee p (AmountToForward fwdInfo)) /\
  OutgoingCTLV fwdInfo <= wrap32 (Timeout pd - TimeLockDelta p) /\
  l' = l /\ tr = [] /\ needUpdate = fst vars /\
  exists chunks,
    EncodeNextHop chanIterator = Ok chunks /\
    length (encodedOnionBlob chunks) = OnionPacketSize /\
    (length (concat chunks) = OnionPacketSize ->
     encodedOnionBlob chunks = concat chunks) /\
    pkts = snd vars ++
           [forwardedPacket (ShortChanID l) pd fwdInfo obfuscator
              (encodedOnionBlob chunks)].
Proof.
  intros Hrun Hnew p. revert Hrun.
  assert (Hrej : forall format failure,
    (let* _ := emit (EvLogError format) in
     rejectHTLC pd failure obfuscator vars) l =
    (Some (needUpdate, pkts), l', tr) -> False).
  { intros format failure Hrun.
    pose proof (proj1 (logged_reject_run format pd failure obfuscator vars l))
      as Hres.
    cbv zeta in Hres. rewrite Hrun in Hres. cbn in Hres.
    inversion Hres. subst. contradiction. }
  unfold processForwardHop. rewrite run_gets. fold p.
  destruct (wrap32 (Timeout pd - TimeLockDelta p) <=? heightNow) eqn:Hexpiry.
  { intros Hrun. exfalso. exact (Hrej _ _ Hrun). }
  destruct (pdAmount pd <? MinHTLC p) eqn:Hmin.
  { intros Hrun. exfalso. exact (Hrej _ _ Hrun). }
  destruct (wrap64 (pdAmount pd - ExpectedFee p (AmountToForward fwdInfo)) <?
            AmountToForward fwdInfo) eqn:Hfee.
  { intros Hrun. exfalso. exact (Hrej _ _ Hrun). }
  destruct (wrap32 (Timeout pd - TimeLockDelta p) <? OutgoingCTLV fwdInfo)
    eqn:Hlock.
  { destruct GetLastChannelUpdate as [update|err] eqn:Hupdate.
    - intros Hrun. exfalso. rewrite run_emit in Hrun.
      pose proof (proj1 (rejectHTLC_run pd
                    (FailIncorrectCltvExpiry (Timeout pd) update)
                    obfuscator vars l)) as Hres.
      inversion Hrun as [[H1 H2 H3]]. rewrite H1 in Hres.
      inversion Hres. subst. contradiction.
    - intros Hrun. rewrite run_emit in Hrun. discriminate. }
  destruct (EncodeNextHop chanIterator) as [chunks|err] eqn:Hencode.
  2:{ intros Hrun. exfalso. exact (Hrej _ _ Hrun). }
  rewrite run_gets. unfold ret. intros Hrun. inversion Hrun; subst.
  apply Z.leb_gt in Hexpiry. apply Z.ltb_ge in Hmin, Hfee, Hlock.
  repeat split; try assumption.
  exists chunks. split; [reflexivity|].
  split; [apply encodedOnionBlob_length|].
  split; [apply encodedOnionBlob_exact|reflexivity].
Qed.

(** *** The scan when there is nothing to settle *)

(** X15: when every active HTLC is outgoing, has its settle among the
    re-sent messages, or has no preimage in the cache, the scan after a
    resynchronisation does nothing at all and returns no error. *)
Theorem scan_without_candidates_is_silent (htlcsSettled : gset Z)
    (activeHTLCs : list HTLC) (l : link) :
  (forall h, In h activeHTLCs ->
     Incoming h = false \/ HtlcIndex h ∈ htlcsSettled \/
     LookupPreimage (RHash h) = None) ->
  settleActiveHtlcs htlcsSettled activeHTLCs l = (None, l, []).
Proof.
  induction activeHTLCs as [|h rest IH]; intros Hnone; [reflexivity|].
  rewrite scan_skip.
  - apply IH. intros h' Hin. apply Hnone. right. exact Hin.
  - destruct (settleCandidate htlcsSettled h) eqn:Hcand; [|reflexivity].
    apply settleCandidate_spec in Hcand as [Hin [Hout [p Hp]]].
    destruct (Hnone h (or_introl eq_refl)) as [H|[H|H]]; congruence.
Qed.

(** *** A resynchronisation that goes wrong *)

(** X16: when the link is to resynchronise and the first thing it
    receives is not a ChannelReestablish of the peer (another message, the
    deadline, or the shutdown signal), it fails and leaves at once: the
    local ChannelReestablish is all it has sent, the channel machine and
    the link are untouched, and none of the events waiting for the loop is
    handled. *)
Theorem resync_without_reestablish_is_fatal (input : syncInput)
    (evs : list loopEvent) (l : link) (localMsg : ChannelReestablish) :
  SyncStates (cfg l) = true ->
  ChanSyncMsg (channel l) = Ok localMsg ->
  PeerSendMessage (MsgChannelReestablish localMsg) = None ->
  noReestablish input ->
  exists reason,
    htlcManager input evs l =
    (BreakOut, l,
     [EvSendMessage (MsgChannelReestablish localMsg);
      EvLogError reason; EvDisconnect reason; EvCancelBlockEpochs]).
Proof.
  intros Hsync Hlocal Hsend Hinput.
  assert (Hrun : exists reason,
    syncChanStates input l =
    (Some (ErrOther reason), l,
     [EvSendMessage (MsgChannelReestablish localMsg)])).
  { unfold syncChanStates. rewrite run_gets, Hlocal.
    unfold bind at 1. unfold SendMessage at 1, emit at 1. rewrite Hsend.
    destruct input as [msg| |]; [|eexists; reflexivity|eexists; reflexivity].
    destruct msg; try (eexists; reflexivity). contradiction. }
  destruct Hrun as [reason Hrun]. exists reason.
  unfold htlcManager. rewrite run_gets, Hsync.
  unfold bind. rewrite Hrun. reflexivity.
Qed.

(** *** Policy updates *)

(** X17: applying a policy update a second time changes nothing more, and
    an update whose base fee, fee rate and time-lock delta are all zero
    leaves the link as it is, whatever its [MinHTLC]. *)
Theorem policy_update_is_idempotent (l : link) (req : policyUpdate) :
  let l1 := snd (fst (handleLinkControl (CmdPolicyUpdate req) l)) in
  snd (fst (handleLinkControl (CmdPolicyUpdate req) l1)) = l1 /\
  (BaseFee (policy req) = 0 -> FeeRate (policy req) = 0 ->
   TimeLockDelta (policy req) = 0 -> l1 = l).
Proof.
  destruct l as [n h c [[mh bf fr tl] dbg hodl sync] r q t].
  destruct req as [[mh' bf' fr' tl'] d].
  unfold handleLinkControl, bind, gets, setCfg, ret, emit. cbn.
  split.
  - destruct (bf' =? 0) eqn:H1, (fr' =? 0) eqn:H2, (tl' =? 0) eqn:H3, d;
      cbn; rewrite ?H1, ?H2, ?H3; reflexivity.
  - intros -> -> ->. destruct d; reflexivity.
Qed.

End LinkBehaviour.

(** ** What the handlers leave alone *)

Lemma keeps_ret {S X A : Type} (f : S -> X) (a : A) : keeps f (ret a).
Proof. intros l. reflexivity. Qed.

Lemma keeps_gets {S X A : Type} (f : S -> X) (g : S -> A) : keeps f (gets g).
Proof. intros l. reflexivity. Qed.

Lemma keeps_emit {S X : Type} (f : S -> X) (e : Event) : keeps f (emit e).
Proof. intros l. reflexivity. Qed.

Lemma keeps_bind {S X A B : Type} (f : S -> X) (c : M S A) (k : A -> M S B) :
  keeps f c -> (forall a, keeps f (k a)) -> keeps f (bind c k).
Proof.
  intros Hc Hk l. unfold bind.
  destruct (c l) as [[a l1] e1] eqn:Hcl.
  destruct (k a l1) as [[b l2] e2] eqn:Hkl. cbn.
  pose proof (Hk a l1) as H2. rewrite Hkl in H2. cbn in H2.
  pose proof (Hc l) as H1. rewrite Hcl in H1. cbn in H1.
  congruence.
Qed.

Create HintDb frame discriminated.

#[export] Hint Resolve keeps_ret keeps_gets keeps_emit : frame.

(** One step of a frame proof: split a [bind], destruct what a [match]
    looks at, or close the goal with a lemma of the data base. *)
Ltac frame_step :=
  match goal with
  | |- keeps _ (bind _ _) => apply keeps_bind; [|intros ?]
  | |- keeps _ (match ?x with _ => _ end) => destruct x
  | |- keeps _ _ => solve [auto with frame]
  end.

Ltac frame := repeat frame_step.

Section Frame.

Context {Chan Reg : Type}.
Context `{LC : LightningChannel Chan} `{ID : InvoiceDatabase Reg}.
Context `{LS : LinkServices}.
Context {X : Type} (f : channelLink Chan Reg -> X).

(** [f] is a part of the link that the counter, the channel machine, the
    registry, the overflow queue and the tick of the log-commit timer are
    not in. *)
Hypothesis HbatchCounter : forall v, keeps f (setBatchCounter v).
Hypothesis Hchannel : forall v, keeps f (setChannel v).
Hypothesis Hregistry : forall v, keeps f (setRegistry v).
Hypothesis HlogCommitTick : forall v, keeps f (setLogCommitTick v).

Lemma keeps_callChannel {A} (e : Event) (g : Chan -> A * Chan) :
  keeps f (callChannel e g).
Proof using Hchannel.
  intros l. unfold callChannel.
  destruct (g (channel l)) as [a c].
  pose proof (Hchannel c l) as H.
  destruct (setChannel c l) as [[u l1] e1]. exact H.
Qed.

Lemma keeps_callRegistry {A} (e : Event) (g : Reg -> A * Reg) :
  keeps f (callRegistry e g).
Proof using Hregistry.
  intros l. unfold callRegistry.
  destruct (g (registry l)) as [a r].
  pose proof (Hregistry r l) as H.
  destruct (setRegistry r l) as [[u l1] e1]. exact H.
Qed.

Hint Resolve HbatchCounter Hchannel Hregistry HlogCommitTick
  keeps_callChannel keeps_callRegistry : frame.

Lemma keeps_fail (format : string) : keeps f (fail format).
Proof using Type. unfold fail. frame. Qed.

Lemma keeps_SendMessage (m : Message) : keeps f (SendMessage m).
Proof using Type. unfold SendMessage. frame. Qed.

Hint Resolve keeps_fail keeps_SendMessage : frame.

Lemma keeps_updateCommitTx : keeps f updateCommitTx.
Proof using HbatchCounter Hchannel HlogCommitTick.
  unfold updateCommitTx. frame.
Qed.

Hint Resolve keeps_updateCommitTx : frame.

Lemma keeps_updateChannelFee (feePerKw : Z) :
  keeps f (updateChannelFee feePerKw).
Proof using HbatchCounter Hchannel HlogCommitTick.
  unfold updateChannelFee. frame.
Qed.

Lemma keeps_sendHTLCError (htlcIndex : Z) (failure : FailureMessage)
    (e : ErrorEncrypter) :
  keeps f (sendHTLCError htlcIndex failure e).
Proof using Hchannel. unfold sendHTLCError. frame. Qed.

Lemma keeps_sendMalformedHTLCError (htlcIndex : Z) (code : FailCode)
    (onionBlob : OnionBlob) :
  keeps f (sendMalformedHTLCError htlcIndex code onionBlob).
Proof using Hchannel. unfold sendMalformedHTLCError. frame. Qed.

Hint Resolve keeps_updateChannelFee keeps_sendHTLCError
  keeps_sendMalformedHTLCError : frame.

Lemma keeps_rejectHTLC pd failure obfuscator vars :
  keeps f (rejectHTLC pd failure obfuscator vars).
Proof using Hchannel. unfold rejectHTLC. frame. Qed.

Hint Resolve keeps_rejectHTLC : frame.

Lemma keeps_processExitHop pd fwdInfo obfuscator heightNow vars :
  keeps f (processExitHop pd fwdInfo obfuscator heightNow vars).
Proof using Hchannel Hregistry. unfold processExitHop. frame. Qed.

Lemma keeps_processForwardHop pd fwdInfo chanIterator obfuscator heightNow
    vars :
  keeps f (processForwardHop pd fwdInfo chanIterator obfuscator heightNow
             vars).
Proof using Hchannel. unfold processForwardHop. frame. Qed.

Hint Resolve keeps_processExitHop keeps_processForwardHop : frame.

Lemma keeps_processDescriptor pd vars : keeps f (processDescriptor pd vars).
Proof using Hchannel Hregistry.
  unfold processDescriptor, processAdd. frame.
Qed.

Hint Resolve keeps_processDescriptor : frame.

Lemma keeps_processDescriptors pds :
  forall vars, keeps f (processDescriptors pds vars).
Proof using Hchannel Hregistry.
  induction pds as [|pd pds IH]; intros vars; cbn [processDescriptors].
  - frame.
  - apply keeps_bind; [auto with frame|]. intros [vars'|]; [apply IH|frame].
Qed.

Hint Resolve keeps_processDescriptors : frame.

Lemma keeps_processLockedInHtlcs pds : keeps f (processLockedInHtlcs pds).
Proof using HbatchCounter Hchannel Hregistry HlogCommitTick.
  unfold processLockedInHtlcs. frame.
Qed.

Hint Resolve keeps_processLockedInHtlcs : frame.

Lemma keeps_handleUpstreamMsg quit msg :
  keeps f (handleUpstreamMsg quit msg).
Proof using HbatchCounter Hchannel Hregistry HlogCommitTick.
  unfold handleUpstreamMsg. frame.
Qed.

Hint Resolve keeps_handleUpstreamMsg : frame.

Lemma keeps_step_without_queue ev :
  (forall v, keeps f (setBestHeight v)) ->
  (forall v, keeps f (setCfg v)) ->
  ~ isQueueEvent ev ->
  keeps f (htlcManagerStep ev).
Proof using HbatchCounter Hchannel Hregistry HlogCommitTick.
  intros Hheight Hcfg Hev.
  destruct ev; cbn in Hev; try tauto;
    unfold htlcManagerStep, handleLinkControl; frame.
Qed.

(** From here on [f] is not about the overflow queue either. *)
Hypothesis HoverflowQueue : forall v, keeps f (setOverflowQueue v).

Hint Resolve HoverflowQueue : frame.

Lemma keeps_handleDownStreamPkt pkt isReProcess :
  keeps f (handleDownStreamPkt pkt isReProcess).
Proof using HbatchCounter Hchannel HlogCommitTick HoverflowQueue.
  unfold handleDownStreamPkt, handleDownStreamSwitch. frame.
Qed.

Hint Resolve keeps_handleDownStreamPkt : frame.

Lemma keeps_step_blockEpoch ok height :
  (forall v, keeps f (setBestHeight v)) ->
  keeps f (htlcManagerStep (BlockEpoch ok height)).
Proof using HbatchCounter Hchannel HlogCommitTick.
  intros Hheight. unfold htlcManagerStep. frame.
Qed.

Lemma keeps_step_linkControl cmd :
  (forall v, keeps f (setCfg v)) ->
  keeps f (htlcManagerStep (LinkControl cmd)).
Proof using Type.
  intros Hcfg. unfold htlcManagerStep, handleLinkControl. frame.
Qed.

Lemma keeps_step_other ev :
  ~ isLinkControl ev -> ~ isBlockEpoch ev ->
  keeps f (htlcManagerStep ev).
Proof using HbatchCounter Hchannel Hregistry HlogCommitTick HoverflowQueue.
  intros Hcontrol Hepoch.
  destruct ev; cbn in Hcontrol, Hepoch; try tauto;
    unfold htlcManagerStep; frame.
Qed.

Lemma keeps_step_without_registry ev :
  (forall v, keeps f (setBestHeight v)) ->
  (forall v, keeps f (setCfg v)) ->
  ~ isUpstream ev ->
  keeps f (htlcManagerStep ev).
Proof using HbatchCounter Hchannel HlogCommitTick HoverflowQueue.
  intros Hheight Hcfg Hev.
  destruct ev; cbn in Hev; try tauto;
    unfold htlcManagerStep, handleLinkControl; frame.
Qed.

Lemma keeps_loop (evs : list loopEvent) :
  (forall ev, In ev evs -> keeps f (htlcManagerStep ev)) ->
  keeps f (htlcManagerLoop evs).
Proof using Type.
  induction evs as [|ev evs IH]; intros Hsteps; cbn [htlcManagerLoop].
  - frame.
  - apply keeps_bind; [apply Hsteps; left; reflexivity|].
    intros [| |]; [|frame|frame].
    apply IH. intros ev' Hin. apply Hsteps. right. exact Hin.
Qed.

End Frame.

Lemma classic_epoch (ev : loopEvent) : isBlockEpoch ev \/ ~ isBlockEpoch ev.
Proof. destruct ev; cbn; tauto. Qed.

Lemma classic_control (ev : loopEvent) :
  isLinkControl ev \/ ~ isLinkControl ev.
Proof. destruct ev; cbn; tauto. Qed.

Section Invariants.

Context {Chan Reg : Type}.
Context `{LC : LightningChannel Chan} `{ID : InvoiceDatabase Reg}.
Context `{LS : LinkServices}.

Abbreviation link := (channelLink Chan Reg).

(** X18: the configuration of the link (forwarding policy, debug and hodl
    flags) is changed by nothing but a request on the control channel:
    over any run of the loop without such a request, whatever the peer,
    the switch, the chain and the timers bring and however the channel
    machine answers, the configuration at the end is the one at the
    start. *)
Theorem only_control_changes_policy (evs : list loopEvent) (l : link) :
  Forall (fun ev => ~ isLinkControl ev) evs ->
  cfg (snd (fst (htlcManagerLoop evs l))) = cfg l.
Proof.
  intros Hnone.
  apply (keeps_loop (cfg (Chan := Chan) (Reg := Reg))).
  intros ev Hin.
  pose proof (proj1 (List.Forall_forall _ _) Hnone ev Hin) as Hev.
  destruct (classic_epoch ev) as [Hepoch|Hother].
  - destruct ev; cbn in Hepoch; try contradiction.
    apply keeps_step_blockEpoch; intros v l0; reflexivity.
  - apply keeps_step_other; try assumption; intros v l0; reflexivity.
Qed.

(** X19: the best known height is changed by nothing but a block epoch:
    over any run of the loop without one it stays what it was. *)
Theorem only_block_epochs_change_height (evs : list loopEvent) (l : link) :
  Forall (fun ev => ~ isBlockEpoch ev) evs ->
  bestHeight (snd (fst (htlcManagerLoop evs l))) = bestHeight l.
Proof.
  intros Hnone.
  apply (keeps_loop (bestHeight (Chan := Chan) (Reg := Reg))).
  intros ev Hin.
  pose proof (proj1 (List.Forall_forall _ _) Hnone ev Hin) as Hev.
  destruct (classic_control ev) as [Hcontrol|Hother].
  - destruct ev; cbn in Hcontrol; try contradiction.
    apply keeps_step_linkControl; intros v l0; reflexivity.
  - apply keeps_step_other; try assumption; intros v l0; reflexivity.
Qed.

(** X20: the overflow queue is changed by nothing but a packet of the
    switch or a packet the queue itself gives back: messages of the peer
    (also the revocations that free slots), block epochs, ticks and policy
    updates leave its content and order as they are. *)
Theorem only_packets_change_overflow_queue (evs : list loopEvent) (l : link) :
  Forall (fun ev => ~ isQueueEvent ev) evs ->
  overflowQueue (snd (fst (htlcManagerLoop evs l))) = overflowQueue l.
Proof.
  intros Hnone.
  apply (keeps_loop (overflowQueue (Chan := Chan) (Reg := Reg))).
  intros ev Hin.
  pose proof (proj1 (List.Forall_forall _ _) Hnone ev Hin) as Hev.
  apply keeps_step_without_queue; try assumption; intros v l0; reflexivity.
Qed.

(** X21: the invoice registry is changed by nothing but the handling of a
    message of the peer: packets of the switch, the overflow queue, block
    epochs, ticks and policy updates never settle an invoice. *)
Theorem only_peer_messages_change_registry (evs : list loopEvent) (l : link) :
  Forall (fun ev => ~ isUpstream ev) evs ->
  registry (snd (fst (htlcManagerLoop evs l))) = registry l.
Proof.
  intros Hnone.
  apply (keeps_loop (registry (Chan := Chan) (Reg := Reg))).
  intros ev Hin.
  pose proof (proj1 (List.Forall_forall _ _) Hnone ev Hin) as Hev.
  apply keeps_step_without_registry; try assumption; intros v l0; reflexivity.
Qed.

End Invariants.

(** ** What a block epoch cannot do *)

Lemma emitsOnly_ret {S A : Type} (P : Event -> Prop) (a : A) :
  emitsOnly (S := S) P (ret a).
Proof. intros l e []. Qed.

Lemma emitsOnly_gets {S A : Type} (P : Event -> Prop) (g : S -> A) :
  emitsOnly P (gets g).
Proof. intros l e []. Qed.

Lemma emitsOnly_emit {S : Type} (P : Event -> Prop) (e : Event) :
  P e -> emitsOnly (S := S) P (emit e).
Proof. intros He l e' [<-|[]]. exact He. Qed.

Lemma emitsOnly_bind {S A B : Type} (P : Event -> Prop) (c : M S A)
    (k : A -> M S B) :
  emitsOnly P c -> (forall a, emitsOnly P (k a)) -> emitsOnly P (bind c k).
Proof.
  intros Hc Hk l e. unfold bind.
  destruct (c l) as [[a l1] e1] eqn:Hcl.
  destruct (k a l1) as [[b l2] e2] eqn:Hkl. cbn.
  intros Hin. apply in_app_or in Hin as [Hin|Hin].
  - apply (Hc l). rewrite Hcl. exact Hin.
  - apply (Hk a l1). rewrite Hkl. exact Hin.
Qed.

Lemma returns_ret {S A : Type} (a : A) : returns (S := S) a (ret a).
Proof. intros l. reflexivity. Qed.

Lemma returns_bind {S A B : Type} (r : B) (c : M S A) (k : A -> M S B) :
  (forall a, returns r (k a)) -> returns r (bind c k).
Proof.
  intros Hk l. unfold bind.
  destruct (c l) as [[a l1] e1].
  pose proof (Hk a l1) as H.
  destruct (k a l1) as [[b l2] e2]. exact H.
Qed.

Create HintDb quiet discriminated.

#[export] Hint Resolve emitsOnly_ret emitsOnly_gets : quiet.

Ltac quiet_step :=
  match goal with
  | |- emitsOnly _ (bind _ _) => apply emitsOnly_bind; [|intros ?]
  | |- emitsOnly _ (emit _) => apply emitsOnly_emit; exact I
  | |- emitsOnly _ (match ?x with _ => _ end) => destruct x
  | |- emitsOnly _ _ => solve [auto with quiet]
  end.

Ltac quiet := repeat quiet_step.

Ltac returns_step :=
  match goal with
  | |- returns _ (bind _ _) => apply returns_bind; intros ?
  | |- returns _ (ret _) => apply returns_ret
  | |- returns _ (match ?x with _ => _ end) => destruct x
  end.

Section BlockEpochs.

Context {Chan Reg : Type}.
Context `{LC : LightningChannel Chan} `{ID : InvoiceDatabase Reg}.
Context `{LS : LinkServices}.

Abbreviation link := (channelLink Chan Reg).

Lemma setters_emit_nothing (P : Event -> Prop) :
  (forall v, emitsOnly P (setBatchCounter (Chan := Chan) (Reg := Reg) v)) /\
  (forall v, emitsOnly P (setBestHeight (Chan := Chan) (Reg := Reg) v)) /\
  (forall v, emitsOnly P (setLogCommitTick (Chan := Chan) (Reg := Reg) v)).
Proof. repeat split; intros v l e []. Qed.

Lemma callChannel_emitsOnly {A} (P : Event -> Prop) (e : Event)
    (g : Chan -> A * Chan) :
  P e -> emitsOnly P (callChannel (Reg := Reg) e g).
Proof.
  intros He l e'. unfold callChannel, setChannel.
  destruct (g (channel l)) as [a c]. cbn. intros [<-|[]]. exact He.
Qed.

Lemma updateChannelFee_never_disconnects (feePerKw : Z) :
  emitsOnly notDisconnect (updateChannelFee (Reg := Reg) feePerKw).
Proof.
  destruct (setters_emit_nothing notDisconnect) as [Hb [Hh Ht]].
  unfold updateChannelFee, updateCommitTx, SendMessage.
  repeat first
    [ quiet_step
    | apply callChannel_emitsOnly; exact I
    | apply Hb | apply Ht ].
Qed.

(** X22: a block epoch never makes the link fail or leave the loop, also
    when the fee cannot be sampled, the channel machine refuses the new fee
    or the signature fails: the errors are logged, nobody is told to
    disconnect, the loop goes on, and the best height is the height of the
    block as a [uint32]. *)
Theorem block_epoch_never_fails (height : Z) (l : link) :
  let run := htlcManagerStep (BlockEpoch true height) l in
  fst (fst run) = Continue /\
  bestHeight (snd (fst run)) = wrap32 height /\
  ~ disconnects (snd run).
Proof.
  cbv zeta. split; [|split].
  - revert l. change (returns Continue (htlcManagerStep (BlockEpoch true height))).
    unfold htlcManagerStep. cbn [negb]. repeat returns_step.
  - unfold htlcManagerStep. cbn [negb].
    rewrite (run_bind (setBestHeight (wrap32 height)) _ l
               {| batchCounter := batchCounter l; bestHeight := wrap32 height;
                  channel := channel l; cfg := cfg l; registry := registry l;
                  overflowQueue := overflowQueue l;
                  logCommitTick := logCommitTick l |} tt [] eq_refl).
    cbn [fst snd].
    match goal with
    | |- bestHeight (snd (fst (?k ?l1))) = _ =>
        change (wrap32 height) with (bestHeight l1);
        assert (Hkeeps : keeps bestHeight k); [|apply Hkeeps]
    end.
    apply keeps_bind; [auto with frame|]. intros c.
    assert (Hfee : forall v, keeps (bestHeight (Chan := Chan) (Reg := Reg))
                               (updateChannelFee v)).
    { intros v. apply keeps_updateChannelFee; intros w l0; reflexivity. }
    repeat first
      [ apply Hfee
      | match goal with
        | |- keeps _ (bind _ _) => apply keeps_bind; [|intros ?]
        | |- keeps _ (match ?x with _ => _ end) => destruct x
        | |- keeps _ _ => solve [auto with frame]
        end ].
  - intros [reason Hin].
    assert (Hquiet : emitsOnly notDisconnect
                       (htlcManagerStep (BlockEpoch true height))).
    { destruct (setters_emit_nothing notDisconnect) as [Hb [Hh Ht]].
      unfold htlcManagerStep. cbn [negb].
      repeat first
        [ quiet_step
        | apply updateChannelFee_never_disconnects
        | apply Hh ]. }
    exact (Hquiet l _ Hin).
Qed.

End BlockEpochs.

(** ** Fee updates and the size of a forwarding batch *)

Lemma addsAtMostOne_bind {S A : Type} (vars : loopVars) (c : M S A)
    (k : A -> M S (option loopVars)) :
  (forall a, addsAtMostOne vars (k a)) -> addsAtMostOne vars (bind c k).
Proof.
  intros Hk l nu pkts. unfold bind.
  destruct (c l) as [[a l1] e1].
  pose proof (Hk a l1 nu pkts) as H.
  destruct (k a l1) as [[b l2] e2]. exact H.
Qed.

Lemma addsAtMostOne_ret {S : Type} (vars : loopVars)
    (r : option loopVars) :
  match r with
  | Some (_, pkts) => pkts = snd vars \/ exists p, pkts = snd vars ++ [p]
  | None => True
  end ->
  addsAtMostOne (S := S) vars (ret r).
Proof.
  intros Hr l nu pkts. cbn. intros ->. exact Hr.
Qed.

Ltac batch_step :=
  match goal with
  | |- addsAtMostOne _ (bind _ _) => apply addsAtMostOne_bind; intros ?
  | |- addsAtMostOne _ (ret _) =>
      apply addsAtMostOne_ret; cbn; first [exact I|left; reflexivity|right; eexists; reflexivity]
  | |- addsAtMostOne _ (match ?x with _ => _ end) => destruct x
  end.

Section Batches.

Context {Chan Reg : Type}.
Context `{LC : LightningChannel Chan} `{ID : InvoiceDatabase Reg}.
Context `{LS : LinkServices}.

Abbreviation link := (channelLink Chan Reg).

(** X23: a fee update is given to the channel machine first and goes to
    the peer only when the machine took it, the wire carrying the fee
    modulo 2^32; then a commitment is signed.  A link that is not eligible
    to forward does nothing, and a fee the machine refuses is not sent. *)
Theorem fee_update_machine_then_wire (feePerKw : Z) (l : link) :
  (EligibleToForward l = false ->
   updateChannelFee feePerKw l = (None, l, [])) /\
  (forall e c,
     EligibleToForward l = true ->
     channel_UpdateFee feePerKw (channel l) = (Some e, c) ->
     updateChannelFee feePerKw l =
     (Some e, withChannel l c, [EvUpdateFee feePerKw])) /\
  (forall c,
     EligibleToForward l = true ->
     channel_UpdateFee feePerKw (channel l) = (None, c) ->
     let msg := MsgUpdateFee
       {| feeChanID := channel_ChanID c; feeFeePerKw := wrap32 feePerKw |} in
     PeerSendMessage msg = None ->
     updateChannelFee feePerKw l =
     let '(err, l2, tr2) := updateCommitTx (withChannel l c) in
     (err, l2, [EvUpdateFee feePerKw; EvSendMessage msg] ++ tr2)).
Proof.
  repeat apply conj.
  - intros Hno. unfold updateChannelFee. rewrite run_gets, Hno.
    destruct l; reflexivity.
  - intros e c Hyes Hfee. unfold updateChannelFee. rewrite run_gets, Hyes.
    unfold bind, callChannel, setChannel. cbn. rewrite Hfee. reflexivity.
  - intros c Hyes Hfee msg Hsend. subst msg.
    unfold updateChannelFee. rewrite run_gets, Hyes. cbn [negb].
    unfold bind, callChannel, setChannel, gets, SendMessage, emit, ChanID,
      withChannel.
    rewrite Hfee. cbn -[updateCommitTx]. rewrite Hsend.
    destruct (updateCommitTx _) as [[err l2] tr2]. reflexivity.
Qed.

Lemma processDescriptor_addsAtMostOne (pd : PaymentDescriptor)
    (vars : loopVars) :
  addsAtMostOne (S := link) vars (processDescriptor pd vars).
Proof.
  unfold processDescriptor, processAdd, processExitHop, processForwardHop,
    rejectHTLC.
  destruct vars as [needUpdate pkts]. repeat batch_step.
Qed.

Lemma processDescriptors_grow (pds : list PaymentDescriptor) :
  forall (vars : loopVars) (l : link) needUpdate pkts,
  fst (fst (processDescriptors pds vars l)) = Some (needUpdate, pkts) ->
  exists added,
    pkts = snd vars ++ added /\ (length added <= length pds)%nat.
Proof.
  induction pds as [|pd pds IH]; intros vars l nu pkts.
  - cbn. intros H. inversion H. exists []. rewrite app_nil_r. auto.
  - cbn [processDescriptors]. unfold bind.
    pose proof (processDescriptor_addsAtMostOne pd vars l) as Hone.
    destruct (processDescriptor pd vars l) as [[[[nu1 pkts1]|] l1] e1].
    + specialize (Hone nu1 pkts1 eq_refl).
      pose proof (IH (nu1, pkts1) l1 nu pkts) as Hrest.
      destruct (processDescriptors pds (nu1, pkts1) l1) as [[r l2] e2].
      cbn in *. intros Hr. destruct (Hrest Hr) as [added [Heq Hlen]].
      destruct Hone as [->|[p ->]].
      * exists added. split; [exact Heq|lia].
      * exists (p :: added). rewrite <- app_assoc in Heq.
        split; [exact Heq|cbn; lia].
    + cbn. discriminate.
Qed.

(** X24: [processLockedInHtlcs] gives the switch at most one packet for
    each descriptor, whatever the descriptors are and however the decoders,
    the registry and the channel machine answer. *)
Theorem at_most_one_packet_per_descriptor (pds : list PaymentDescriptor)
    (l : link) :
  (length (fst (fst (processLockedInHtlcs pds l))) <= length pds)%nat.
Proof.
  unfold processLockedInHtlcs, bind.
  pose proof (processDescriptors_grow pds (false, []) l) as Hgrow.
  destruct (processDescriptors pds (false, []) l) as [[[[nu pkts]|] l1] e1].
  - destruct (Hgrow nu pkts eq_refl) as [added [-> Hlen]]. cbn in *.
    destruct nu; cbn.
    + destruct (updateCommitTx l1) as [[[e|] l2] e2]; cbn; lia.
    + exact Hlen.
  - cbn. lia.
Qed.

End Batches.

(** ** The further behaviour on the scenarios *)

(** Two Adds arrive while one is waiting. *)
Lemma overflow_keeps_arrival_order_witness :
  htlcManagerLoop (LS := forwardServices forwardInfo)
    (map Downstream [downstreamAdd 2000; downstreamAdd 3000]) starvedLink =
  (Continue,
   withOverflowQueue starvedLink
     [downstreamAdd 1500; downstreamAdd 2000; downstreamAdd 3000],
   []).
Proof.
  apply (overflow_keeps_arrival_order (LS := forwardServices forwardInfo)
           [downstreamAdd 2000; downstreamAdd 3000] starvedLink).
  - repeat constructor; eexists; reflexivity.
  - discriminate.
Defined.

(** The waiting Add is tried again while the channel has no free slot. *)
Lemma overflow_retry_requeues_at_tail_witness :
  overflowQueue
    (snd (fst (htlcManagerStep (LS := forwardServices forwardInfo)
                 OverflowOutgoing starvedLink))) =
  [stampPacket 7 (downstreamAdd 1500)
     {| addChanID := 0; addID := 0; addAmount := 1500;
        addPaymentHash := 99; addExpiry := 500100; addOnionBlob := [] |}].
Proof.
  rewrite (overflow_retry_requeues_at_tail
             (LS := forwardServices forwardInfo) starvedLink
             (downstreamAdd 1500) []
             {| addChanID := 0; addID := 0; addAmount := 1500;
                addPaymentHash := 99; addExpiry := 500100;
                addOnionBlob := [] |}
             (channel starvedLink)); reflexivity.
Defined.

(** An Add of 1000 msat on a channel with free slots. *)
Lemma accepted_add_circuit_before_wire_witness :
  snd (handleDownStreamPkt (LS := forwardServices forwardInfo)
         (downstreamAdd 1000) false plainLink) =
  [EvAddHTLC {| addChanID := 7; addID := 0; addAmount := 1000;
                addPaymentHash := 99; addExpiry := 500100;
                addOnionBlob := [] |};
   EvSwitchAddCircuit
     {| PaymentHash := 99; IncomingChanID := 41; IncomingHTLCID := 1;
        OutgoingChanID := 42; OutgoingHTLCID := 0;
        ErrorEncrypterOf := Some toyEncrypter |};
   EvSendMessage (MsgUpdateAddHTLC
     {| addChanID := 7; addID := 0; addAmount := 1000;
        addPaymentHash := 99; addExpiry := 500100; addOnionBlob := [] |})].
Proof.
  rewrite (accepted_add_circuit_before_wire
             (LS := forwardServices forwardInfo) plainLink
             (downstreamAdd 1000)
             {| addChanID := 0; addID := 0; addAmount := 1000;
                addPaymentHash := 99; addExpiry := 500100;
                addOnionBlob := [] |}
             0 (snd (toyAdd openChannel)) false); reflexivity.
Defined.

(** An Add on a channel machine that refuses every update. *)
Lemma refused_add_goes_back_to_switch_witness :
  sendsNothing
    (snd (handleDownStreamPkt (LS := forwardServices forwardInfo)
            (downstreamAdd 1000) false
            (scenarioLink brokenChannel (scenarioCfg false false) ∅ [] 0))).
Proof.
  pose proof (refused_add_goes_back_to_switch
                (LS := forwardServices forwardInfo)
                (scenarioLink brokenChannel (scenarioCfg false false) ∅ [] 0)
                (downstreamAdd 1000)
                {| addChanID := 0; addID := 0; addAmount := 1000;
                   addPaymentHash := 99; addExpiry := 500100;
                   addOnionBlob := [] |}
                internalError brokenChannel false) as H.
  do 2 (lapply H; [clear H; intros H|reflexivity]).
  lapply H; [clear H; intros H|discriminate].
  destruct (handleDownStreamPkt _ _ _) as [[u l'] tr].
  exact (proj1 (proj2 H)).
Defined.

(** A settle of the switch with the revocation window open. *)
Lemma settle_packet_commits_at_once_witness :
  snd (handleDownStreamPkt (LS := forwardServices forwardInfo)
         downstreamSettle false plainLink) =
  [EvSettleHTLC 77 1;
   EvSendMessage (MsgUpdateFufillHTLC
     {| fufillChanID := 7; fufillID := 1; fufillPaymentPreimage := 77 |});
   EvSignNextCommitment;
   EvSendMessage (MsgCommitSig
     {| commitChanID := 7; commitCommitSig := []; commitHtlcSigs := [] |});
   EvStopLogCommitTimer].
Proof.
  rewrite (settle_packet_commits_at_once
             (LS := forwardServices forwardInfo) plainLink downstreamSettle
             {| fufillChanID := 0; fufillID := 0;
                fufillPaymentPreimage := 77 |}
             openChannel false); reflexivity.
Defined.

(** A commitment of the peer on a channel that is then fully synced,
    without and with the shutdown signal at the publication. *)
Lemma accepted_commitment_is_revoked_first_witness :
  snd (handleUpstreamMsg (LS := forwardServices forwardInfo) false
         (MsgCommitSig someCommitSig) plainLink) =
  [EvReceiveNewCommitment [] []; EvRevokeCurrentCommitment;
   EvSendMessage (MsgRevokeAndAck toyRevocation);
   EvHtlcUpdates []; EvResetLogCommitTimer] /\
  snd (handleUpstreamMsg (LS := forwardServices forwardInfo) true
         (MsgCommitSig someCommitSig) plainLink) =
  [EvReceiveNewCommitment [] []; EvRevokeCurrentCommitment;
   EvSendMessage (MsgRevokeAndAck toyRevocation)].
Proof.
  split.
  - rewrite (accepted_commitment_is_revoked_first
               (LS := forwardServices forwardInfo) plainLink someCommitSig
               openChannel openChannel toyRevocation [] false); reflexivity.
  - rewrite (accepted_commitment_is_revoked_first
               (LS := forwardServices forwardInfo) plainLink someCommitSig
               openChannel openChannel toyRevocation [] true); reflexivity.
Defined.

(** A commitment of the peer that the channel machine refuses. *)
Lemma rejected_commitment_fails_witness :
  snd (handleUpstreamMsg (LS := forwardServices forwardInfo) false
         (MsgCommitSig someCommitSig)
         (scenarioLink brokenChannel (scenarioCfg false false) ∅ [] 0)) =
  [EvReceiveNewCommitment [] [];
   EvLogError "ChannelPoint(%v): unable to accept new commitment: %v";
   EvDisconnect "ChannelPoint(%v): unable to accept new commitment: %v"].
Proof.
  rewrite (rejected_commitment_fails
             (LS := forwardServices forwardInfo)
             (scenarioLink brokenChannel (scenarioCfg false false) ∅ [] 0)
             someCommitSig internalError brokenChannel false); reflexivity.
Defined.

(** A locked-in settle and a locked-in fail. *)
Lemma resolutions_are_forwarded_in_order_witness :
  processLockedInHtlcs (LS := forwardServices forwardInfo)
    [lockedInSettle; lockedInFail] plainLink =
  ([resolutionPacket 42 lockedInSettle; resolutionPacket 42 lockedInFail],
   plainLink, [EvSignalFreeSlot; EvSignalFreeSlot]).
Proof.
  rewrite (resolutions_are_forwarded_in_order
             (LS := forwardServices forwardInfo)
             [lockedInSettle; lockedInFail] plainLink);
    [reflexivity|repeat constructor; discriminate].
Defined.

(** The settle of the zero-value invoice scenario came after the grace
    check. *)
Lemma final_hop_settles_only_checked_witness :
  500000 < wrap32 (500200 - expiryGraceDelta).
Proof.
  refine (proj1 (proj2
    (final_hop_settles_only_checked
       (lockedInAdd 123456 500200) (exitInfo 123000 500200) toyEncrypter
       500000 (false, [])
       (scenarioLink openChannel (scenarioCfg false false)
          zeroValueRegistry [] 0)
       77 3 _))).
  vm_compute. left. reflexivity.
Defined.

(** The forwarding scenario of the specification: the packet that goes on
    passed the minimum amount. *)
Lemma forwarded_add_passed_policy_witness :
  MinHTLC scenarioPolicy <= 1000000.
Proof.
  refine (proj1 (proj2
    (forwarded_add_passed_policy (LS := forwardServices forwardInfo)
       (lockedInAdd 1000000 500200)
       {| NextHop := 43; AmountToForward := 999000; OutgoingCTLV := 500056 |}
       (toyIterator forwardInfo) toyEncrypter 500000 (false, [])
       plainLink plainLink false
       [forwardedPacket 42 (lockedInAdd 1000000 500200)
          {| NextHop := 43; AmountToForward := 999000;
             OutgoingCTLV := 500056 |}
          toyEncrypter (repeat Byte.x00 1366)]
       [] _ _))).
  - vm_compute. reflexivity.
  - discriminate.
Defined.

(** An active incoming HTLC whose preimage the cache does not know. *)
Lemma scan_without_candidates_is_silent_witness :
  settleActiveHtlcs (LS := forwardServices forwardInfo) ∅ [activeIncoming]
    resyncLink = (None, resyncLink, []).
Proof.
  apply (scan_without_candidates_is_silent (LS := forwardServices forwardInfo)
           ∅ [activeIncoming] resyncLink).
  intros h [<-|[]]. right. right. reflexivity.
Defined.

(** The deadline of the resynchronisation passes. *)
Lemma resync_without_reestablish_is_fatal_witness :
  exists reason,
    htlcManager (LS := forwardServices forwardInfo) SyncDeadline [BatchTick]
      syncingLink =
    (BreakOut, syncingLink,
     [EvSendMessage (MsgChannelReestablish toyReestablish);
      EvLogError reason; EvDisconnect reason; EvCancelBlockEpochs]).
Proof.
  apply (resync_without_reestablish_is_fatal
           (LS := forwardServices forwardInfo) SyncDeadline [BatchTick]
           syncingLink toyReestablish);
    first [reflexivity|exact I].
Defined.

(** A block, a commitment of the peer, a packet of the switch and a tick. *)
Lemma only_control_changes_policy_witness :
  cfg (snd (fst (htlcManagerLoop (LS := forwardServices forwardInfo)
                   [BlockEpoch true 500001;
                    Upstream (MsgCommitSig someCommitSig) false;
                    Downstream (downstreamAdd 1000); BatchTick]
                   plainLink))) = cfg plainLink.
Proof.
  apply (only_control_changes_policy (LS := forwardServices forwardInfo)).
  repeat constructor; intros [].
Defined.

(** A policy update, a commitment of the peer and a packet of the
    switch. *)
Lemma only_block_epochs_change_height_witness :
  bestHeight
    (snd (fst (htlcManagerLoop (LS := forwardServices forwardInfo)
                 [LinkControl (CmdPolicyUpdate
                    {| policy := scenarioPolicy; done := true |});
                  Upstream (MsgCommitSig someCommitSig) false;
                  Downstream (downstreamAdd 1000)]
                 plainLink))) = bestHeight plainLink.
Proof.
  apply (only_block_epochs_change_height (LS := forwardServices forwardInfo)).
  repeat constructor; intros [].
Defined.

(** A block, a commitment of the peer and a tick, with an Add waiting. *)
Lemma only_packets_change_overflow_queue_witness :
  overflowQueue
    (snd (fst (htlcManagerLoop (LS := forwardServices forwardInfo)
                 [BlockEpoch true 500001;
                  Upstream (MsgCommitSig someCommitSig) false; BatchTick]
                 starvedLink))) = overflowQueue starvedLink.
Proof.
  apply (only_packets_change_overflow_queue
           (LS := forwardServices forwardInfo)).
  repeat constructor; intros [].
Defined.

(** A block, a settle of the switch and a tick. *)
Lemma only_peer_messages_change_registry_witness :
  registry
    (snd (fst (htlcManagerLoop (LS := forwardServices forwardInfo)
                 [BlockEpoch true 500001; Downstream downstreamSettle;
                  BatchTick]
                 (scenarioLink openChannel (scenarioCfg false false)
                    zeroValueRegistry [] 0)))) = zeroValueRegistry.
Proof.
  apply (only_peer_messages_change_registry
           (LS := forwardServices forwardInfo)).
  repeat constructor; intros [].
Defined.
